(** * go-migrate: the orchestration layer of [main.go]

    A shallow embedding of [main.go]: the configuration records, the
    [Queue] counter pair, the goroutine body [migrate] and the coordinator
    [main], written as command trees over the operations the Go code
    performs (system calls, console and log output, the mutex, the wait
    group, loads and stores of the two shared counters).

    Two interpreters give the trees a meaning:
    - [run] executes one tree against an environment that answers every
      fallible call and every load, and returns the sequence of events;
    - [step_fn] executes one step of one goroutine of a whole process
      (interleaving semantics, one shared store), and [run_sched] iterates
      it along a schedule.

    [checkAssets] is a function over a disk of named files, with the
    failures of its file operations given from outside. *)

From Stdlib Require Import ZArith List String Ascii Bool Lia.
From stdpp Require Import base tactics option list strings.
Import ListNotations.

Local Open Scope string_scope.
Local Open Scope Z_scope.

(** ** Data model *)

(** [type Project struct] *)
Record Project := mkProject {
  SVN : string;
  Name : string;
  Standard : bool
}.

(** [type Config struct] *)
Record Config := mkConfig {
  BasePath : string;
  UsersPath : string;
  BashPath : string;
  Projects : list Project
}.

(** A Go [error] value that is not [nil], by its message; [None] is [nil]. *)
Definition error := string.

(** An [*os.File], by the name it was created under. *)
Definition File := string.

(** [exec.Cmd]: the fields the program sets. *)
Record Cmd := mkCmd {
  Path : string;
  Args : list string;
  Stdout : option File;
  Stderr : option File
}.

(** [exec.Command(name, arg...)]: [Args] holds the command name itself at
    index 0, then the arguments. ([Path] is the name as given; the lookup
    of a bare name in the search path is the library's business.) *)
Definition exec_Command (name : string) (arg : list string) : Cmd :=
  {| Path := name; Args := name :: arg; Stdout := None; Stderr := None |}.

Definition set_Stdout (c : Cmd) (f : File) : Cmd :=
  {| Path := Path c; Args := Args c; Stdout := Some f; Stderr := Stderr c |}.

Definition set_Stderr (c : Cmd) (f : File) : Cmd :=
  {| Path := Path c; Args := Args c; Stdout := Stdout c; Stderr := Some f |}.

(** The line feed of the Go escape [\n]. *)
Definition LF : string := String (ascii_of_nat 10) EmptyString.

(** [strings.Join(elems, sep)] *)
Definition strings_Join (elems : list string) (sep : string) : string :=
  String.concat sep elems.

(** Go's [int] on a 64-bit platform: two's complement wrap-around. *)
Definition int_wrap (z : Z) : Z := (z + 2 ^ 63) mod 2 ^ 64 - 2 ^ 63.

(** [x++] on an [int]. *)
Definition incr (n : Z) : Z := int_wrap (n + 1).

(** The five [exec.Cmd] variables of [migrate], by name. *)
Inductive Job := Migration | Tags | Branches | Pegs | Old.

(** Operations that return an [error] ([nil] or not). *)
Inductive syscall :=
| DecodeFile (fpath : string)          (* toml.DecodeFile(fpath, &config) *)
| CheckAssets                          (* checkAssets() *)
| Chdir (dir : string)                 (* os.Chdir(dir) *)
| Stat (name : string)                 (* os.Stat(name) *)
| Create (name : string)               (* os.Create(name) *)
| Run (j : Job) (c : Cmd).             (* c.Run(), for the variable named j *)

(** Arguments of [fmt.Printf]. *)
Inductive value :=
| VStr (s : string)
| VInt (n : Z)
| VErr (e : error).

(** Operations whose result the program does not look at. *)
Inductive effect :=
| Printf (format : string) (a : list value)
| Println (s : string)
| WriteString (f : File) (s : string)  (* _, _ = f.WriteString(s) *)
| Close (f : File)
| MuLock                               (* mu.Lock() *)
| MuUnlock                             (* mu.Unlock() *)
| WgAdd (delta : Z)                    (* queue.wg.Add(delta) *)
| WgDone                               (* queue.wg.Done() *)
| WgWait.                              (* queue.wg.Wait() *)

(** The two plain [int] fields of the shared [queue]. *)
Inductive var := Complete | Total.

(** Command trees: what a goroutine still has to do. *)
Inductive prog :=
| Return                                         (* the function returns *)
| Exit (code : Z)                                (* os.Exit(code) *)
| Call (c : syscall) (k : option error -> prog)
| Do (e : effect) (k : prog)
| Load (x : var) (k : Z -> prog)
| Store (x : var) (n : Z) (k : prog)
| Go (t : prog) (k : prog).                      (* go t; k *)

Declare Scope prog_scope.
Delimit Scope prog_scope with prog.
Bind Scope prog_scope with prog.

Notation "'let!' x ':=' c 'in' k" := (Call c (fun x => k))
  (at level 10, x name, c at level 100, k at level 200) : prog_scope.
Notation "e ';;' k" := (Do e k)
  (at level 100, k at level 200, right associativity) : prog_scope.

(** ** The program *)

Section Program.

(** [path.Join] of the Go standard library, for two elements. *)
Variable path_Join : string -> string -> string.

(** [var config Config], as decoded from [projects.toml]. *)
Variable config : Config.

(** [func (q *Queue) Add(delta int)] *)
Definition Queue_Add (delta : Z) (k : prog) : prog :=
  Do (WgAdd delta)
     (Load Total (fun n => Store Total (incr n) k)).

(** [func (q *Queue) Done()] *)
Definition Queue_Done (k : prog) : prog :=
  Do WgDone
     (Load Complete (fun n => Store Complete (incr n) k)).

(** The first deferred function of [migrate]. *)
Definition finished (project : Project) (k : prog) : prog :=
  Queue_Done
    (Load Complete (fun c =>
     Load Total (fun t =>
     Do (Printf ("[%d/%d] Finished migrating %s" +:+ LF)
                [VInt c; VInt t; VStr (Name project)]) k))).

(** [std] of [migrate]. *)
Definition std_of (project : Project) : string :=
  if Standard project then "-s" else "".

(** [oldBranch] of [migrate]. *)
Definition oldBranch_of (project : Project) : string :=
  if Standard project then "trunk" else "git-svn".

(** The log line written before a command runs. *)
Definition invocation (c : Cmd) : string :=
  strings_Join (Args c) " " +:+ LF.

(** [if err != nil { fmt.Printf(...) }], then the rest: the failure is
    printed and the function goes on. *)
Definition log_err (err : option error) (report : error -> effect) (k : prog) : prog :=
  match err with
  | Some e => Do (report e) k
  | None => k
  end.

(** From [mu.Lock()] to the end of [migrate]; [out] is the open log file
    and [deferred] what the two earlier [defer]s run on return. *)
Definition cleanup (project : Project) (out : File) (deferred : prog) : prog :=
  (MuLock ;;
   (* defer mu.Unlock() *)
   let deferred := Do MuUnlock deferred in
   let! err := Chdir (path_Join (BasePath config) (Name project)) in
   match err with
   | Some e =>
       Printf ("Could not change directory: %v" +:+ LF) [VErr e] ;; deferred
   | None =>
   (* Tags *)
   let tags := exec_Command (BashPath config) [path_Join (BasePath config) "tags.sh"] in
   let tags := set_Stdout tags out in
   let tags := set_Stderr tags out in
   WriteString out (invocation tags) ;;
   Printf ("Converting tags for %s..." +:+ LF) [VStr (Name project)] ;;
   let! err := Run Tags tags in
   log_err err (fun e => Printf ("Could not convert tags for %s: %v" +:+ LF)
                                [VStr (Name project); VErr e]) (
   (* Branches *)
   let branches := exec_Command (BashPath config) [path_Join (BasePath config) "branches.sh"] in
   let branches := set_Stdout branches out in
   let branches := set_Stderr branches out in
   WriteString out (invocation branches) ;;
   Printf ("Converting branches for %s..." +:+ LF) [VStr (Name project)] ;;
   let! err := Run Branches branches in
   log_err err (fun e => Printf ("Could not convert branches for %s: %v" +:+ LF)
                                [VStr (Name project); VErr e]) (
   (* Peg-revisions *)
   let pegs := exec_Command (BashPath config) [path_Join (BasePath config) "pegs.sh"] in
   let pegs := set_Stdout pegs out in
   let pegs := set_Stderr pegs out in
   WriteString out (invocation pegs) ;;
   Printf ("Converting peg-revisions for %s..." +:+ LF) [VStr (Name project)] ;;
   let! err := Run Pegs pegs in
   log_err err (fun e => Printf ("Could not convert the peg-revisions for %s: %v" +:+ LF)
                                [VStr (Name project); VErr e]) (
   (* Standard projects have a trunk branch, otherwise a git-svn branch *)
   let oldBranch := oldBranch_of project in
   let old := exec_Command "git" ["branch"; "-d"; oldBranch] in
   let old := set_Stdout old out in
   let old := set_Stderr old out in
   WriteString out (invocation old) ;;
   Printf ("Deleting the %s branch..." +:+ LF) [VStr oldBranch] ;;
   let! err := Run Old old in
   log_err err (fun e => Printf ("Could not delete the %s branch: %v" +:+ LF)
                                [VStr oldBranch; VErr e]) (
   let! err := Chdir (BasePath config) in
   match err with
   | Some e =>
       Printf ("Could not change directory: %v" +:+ LF) [VErr e] ;; deferred
   | None => deferred
   end))))
   end)%prog.

(** [func migrate(project Project)] *)
Definition migrate (project : Project) : prog :=
  (* defer func() { queue.Done(); fmt.Printf(...) }() *)
  (let deferred := finished project Return in
   let! err := Stat (path_Join (BasePath config) (Name project)) in
   match err with
   | None =>
       Printf ("%s already exists, skipping..." +:+ LF) [VStr (Name project)] ;;
       deferred
   | Some _ =>
   let std := std_of project in
   let out := path_Join (BasePath config) (Name project +:+ ".log") in
   let! err := Create out in
   match err with
   | Some e =>
       Printf ("Could not open log file for %s: %v" +:+ LF)
              [VStr (Name project); VErr e] ;;
       deferred
   | None =>
   (* defer out.Close() *)
   let deferred := Do (Close out) deferred in
   (* Migration *)
   let migration :=
     exec_Command "git" ["svn"; "clone"; SVN project; "--authors-file=users.txt";
                         "--no-metadata"; "--prefix"; std; Name project] in
   let migration := set_Stdout migration out in
   let migration := set_Stderr migration out in
   WriteString out (invocation migration) ;;
   Printf ("Migrating %s..." +:+ LF) [VStr (Name project)] ;;
   let! err := Run Migration migration in
   match err with
   | Some e =>
       Printf ("Could not migrate %s: %v" +:+ LF) [VStr (Name project); VErr e] ;;
       deferred
   | None => cleanup project out deferred
   end
   end
   end)%prog.

(** The [for _, project := range config.Projects] loop of [main]. *)
Fixpoint spawn_all (projects : list Project) (k : prog) : prog :=
  match projects with
  | [] => k
  | project :: rest =>
      Queue_Add 1 (Go (migrate project) (spawn_all rest k))
  end.

(** [func main()]. [checkAssets] writes the three helper scripts and the
    copy of the users file before any goroutine exists; it is one
    fallible call here. *)
Definition main : prog :=
  (let! _ := DecodeFile "projects.toml" in
   let! err := Chdir (BasePath config) in
   match err with
   | Some e =>
       Printf ("Could not change directory: %v" +:+ LF) [VErr e] ;; Exit 1
   | None =>
   let! err := CheckAssets in
   match err with
   | Some e =>
       Printf ("Could not generate assets: %v" +:+ LF) [VErr e] ;; Exit 1
   | None =>
   spawn_all (Projects config)
     (WgWait ;;
      Println "Migration finished..." ;;
      Return)
   end
   end)%prog.

End Program.

Arguments migrate path_Join config project : assert.
Arguments cleanup path_Join config project out deferred : assert.
Arguments main path_Join config : assert.

(** ** One goroutine against an environment *)

(** What a goroutine does, one entry per operation, with the answer it got. *)
Inductive event :=
| ECall (c : syscall) (r : option error)
| EDo (e : effect)
| ELoad (x : var) (n : Z)
| EStore (x : var) (n : Z)
| EGo (t : prog)
| EExit (code : Z)
| EReturn.

(** The environment of one goroutine: the answer to its [n]-th operation
    when that is a fallible call, and the value it reads when that is a
    load of a shared counter (other goroutines may have written it). *)
Record Env := mkEnv {
  respond : nat -> syscall -> option error;
  recall : nat -> var -> Z
}.

(** The events of [p], started as the [n]-th operation of its goroutine. *)
Fixpoint run (env : Env) (n : nat) (p : prog) : list event :=
  match p with
  | Return => []
  | Exit code => [EExit code]
  | Call c k =>
      let r := respond env n c in
      ECall c r :: run env (S n) (k r)
  | Do e k => EDo e :: run env (S n) k
  | Load x k =>
      let v := recall env n x in
      ELoad x v :: run env (S n) (k v)
  | Store x v k => EStore x v :: run env (S n) k
  | Go t k => EGo t :: run env (S n) k
  end.

(** The fallible calls of a trace, in order. *)
Fixpoint calls (tr : list event) : list (syscall * option error) :=
  match tr with
  | [] => []
  | ECall c r :: tr' => (c, r) :: calls tr'
  | _ :: tr' => calls tr'
  end.

(** The commands run in a trace, by the variable they were run from. *)
Fixpoint jobs (tr : list event) : list Job :=
  match tr with
  | [] => []
  | ECall (Run j _) _ :: tr' => j :: jobs tr'
  | _ :: tr' => jobs tr'
  end.

(** The command a trace runs from [migration], if it gets that far. *)
Fixpoint migration_of (tr : list event) : option Cmd :=
  match tr with
  | [] => None
  | ECall (Run Migration c) _ :: _ => Some c
  | _ :: tr' => migration_of tr'
  end.

(** The operations the critical section is about: mutex operations,
    directory changes and commands. *)
Definition is_key (e : event) : bool :=
  match e with
  | EDo MuLock | EDo MuUnlock => true
  | ECall (Chdir _) _ => true
  | ECall (Run _ _) _ => true
  | _ => false
  end.

Definition key_events (tr : list event) : list event := List.filter is_key tr.


(** What [os.Stat] looks at: a name is bound to a file, to a directory, or
    to nothing. *)
Inductive entry := IsFile | IsDir.

Definition filesystem := string -> option entry.

(** [os.Stat(name)] on such a file system: the error is [nil] exactly when
    something, of any kind, has that name. *)
Definition os_Stat (fs : filesystem) (name : string) : option error :=
  match fs name with
  | Some _ => None
  | None => Some ("stat " +:+ name +:+ ": no such file or directory")
  end.

(** The environment answers [os.Stat] from the file system [fs]. *)
Definition stat_from (fs : filesystem) (env : Env) : Prop :=
  forall n name, respond env n (Stat name) = os_Stat fs name.

(** ** The whole process: goroutines over one shared store *)

Record state := mkState {
  threads : list prog;      (* goroutine 0 is main; the others are tasks *)
  mu : bool;                (* var mu sync.Mutex: is it locked? *)
  wg : Z;                   (* queue.wg: the wait group's counter *)
  q_Complete : Z;           (* queue.Complete *)
  q_Total : Z;              (* queue.Total *)
  exited : option Z         (* the exit status, once the process has ended *)
}.

Definition set_thread (s : state) (i : nat) (p : prog) : state :=
  mkState (<[i:=p]> (threads s)) (mu s) (wg s) (q_Complete s) (q_Total s) (exited s).

Definition set_mu (s : state) (b : bool) : state :=
  mkState (threads s) b (wg s) (q_Complete s) (q_Total s) (exited s).

Definition set_wg (s : state) (n : Z) : state :=
  mkState (threads s) (mu s) n (q_Complete s) (q_Total s) (exited s).

Definition halt (code : Z) (s : state) : state :=
  mkState (threads s) (mu s) (wg s) (q_Complete s) (q_Total s) (Some code).

Definition spawn (s : state) (t : prog) : state :=
  mkState (threads s ++ [t])%list (mu s) (wg s) (q_Complete s) (q_Total s) (exited s).

Definition read (s : state) (x : var) : Z :=
  match x with
  | Complete => q_Complete s
  | Total => q_Total s
  end.

Definition write (s : state) (x : var) (n : Z) : state :=
  match x with
  | Complete => mkState (threads s) (mu s) (wg s) n (q_Total s) (exited s)
  | Total => mkState (threads s) (mu s) (wg s) (q_Complete s) n (exited s)
  end.

(** [wg.Add(delta)]: a negative counter is a panic. *)
Definition wg_add (s : state) (i : nat) (e : effect) (delta : Z) (k : prog)
  : event * state :=
  let n := wg s + delta in
  if n <? 0 then (EDo e, halt 2 s) else (EDo e, set_wg (set_thread s i k) n).

(** One step of goroutine [i]; [r] is the answer of the outside world, used
    when the step is a fallible call. [None]: the goroutine cannot move (it
    is blocked, it has returned, there is no such goroutine, or the process
    has ended). A plain [int] is read and written in separate steps. *)
Definition step_fn (s : state) (i : nat) (r : option error) : option (event * state) :=
  match exited s with
  | Some _ => None
  | None =>
      match threads s !! i with
      | None => None
      | Some p =>
          match p with
          | Return =>
              (* main returns: the process ends, whatever the others do *)
              match i with
              | O => Some (EReturn, halt 0 s)
              | S _ => None
              end
          | Exit code => Some (EExit code, halt code s)
          | Call c k => Some (ECall c r, set_thread s i (k r))
          | Do e k =>
              match e with
              | MuLock =>
                  if mu s then None
                  else Some (EDo e, set_mu (set_thread s i k) true)
              | MuUnlock =>
                  (* unlock of an unlocked mutex is a fatal error *)
                  if mu s then Some (EDo e, set_mu (set_thread s i k) false)
                  else Some (EDo e, halt 2 s)
              | WgAdd delta => Some (wg_add s i e delta k)
              | WgDone => Some (wg_add s i e (-1) k)
              | WgWait =>
                  if wg s =? 0 then Some (EDo e, set_thread s i k) else None
              | _ => Some (EDo e, set_thread s i k)
              end
          | Load x k =>
              let v := read s x in
              Some (ELoad x v, set_thread s i (k v))
          | Store x v k => Some (EStore x v, write (set_thread s i k) x v)
          | Go t k => Some (EGo t, spawn (set_thread s i k) t)
          end
      end
  end.

(** A schedule: which goroutine moves next, and what the world answers. *)
Definition schedule := list (nat * option error).

(** A process trace: the events, each with its goroutine, oldest first. *)
Definition trace := list (nat * event).

(** Run a schedule from [s], after the trace [tr]. [None]: the schedule asks
    a goroutine to move that cannot. *)
Fixpoint run_sched (s : state) (tr : trace) (sch : schedule) : option (trace * state) :=
  match sch with
  | [] => Some (tr, s)
  | (i, r) :: rest =>
      match step_fn s i r with
      | Some (e, s') => run_sched s' (tr ++ [(i, e)])%list rest
      | None => None
      end
  end.

(** The process at start: main alone, mutex free, [queue = &Queue{}]. *)
Definition init (path_Join : string -> string -> string) (config : Config) : state :=
  mkState [main path_Join config] false 0 0 0 None.

(** Does goroutine [i] hold [mu] after the trace: its last mutex operation
    was a [Lock]. *)
Definition holds_step (i : nat) (h : bool) (l : nat * event) : bool :=
  if Nat.eqb (fst l) i then
    match snd l with
    | EDo MuLock => true
    | EDo MuUnlock => false
    | _ => h
    end
  else h.

Definition holding (i : nat) (tr : trace) : bool :=
  fold_left (holds_step i) tr false.

(** Is goroutine [i] inside the cleanup span after the trace: it has
    changed into a directory and has not yet tried to change back. *)
Definition span_step (i : nat) (b : bool) (l : nat * event) : bool :=
  if Nat.eqb (fst l) i then
    match snd l with
    | ECall (Chdir _) None => negb b
    | ECall (Chdir _) (Some _) => false
    | _ => b
    end
  else b.

Definition in_span (i : nat) (tr : trace) : bool :=
  fold_left (span_step i) tr false.

(** Has [wg.Wait()] returned in main? *)
Definition wait_returned (tr : trace) : bool :=
  existsb (fun l => match l with
                    | (O, EDo WgWait) => true
                    | _ => false
                    end) tr.

(** ** Sample inputs *)

Definition join_slash (a b : string) : string := a +:+ "/" +:+ b.

Definition alpha : Project := mkProject "svn://host/alpha" "alpha" true.
Definition beta : Project := mkProject "svn://host/beta" "beta" false.

Definition sample_config (projects : list Project) : Config :=
  mkConfig "/srv/git" "/srv/users.txt" "/bin/bash" projects.

(** Nothing is there yet and every call succeeds. *)
Definition fresh_env : Env :=
  mkEnv (fun _ c => match c with
                    | Stat _ => Some "no such file or directory"
                    | _ => None
                    end)
        (fun _ _ => 0).

(** As [fresh_env], but entering the project's directory fails. *)
Definition no_entry_env : Env :=
  mkEnv (fun _ c => match c with
                    | Stat _ => Some "no such file or directory"
                    | Chdir _ => Some "permission denied"
                    | _ => None
                    end)
        (fun _ _ => 0).

(** As [fresh_env], but every cleanup script fails. *)
Definition failing_scripts_env : Env :=
  mkEnv (fun _ c => match c with
                    | Stat _ => Some "no such file or directory"
                    | Run Migration _ => None
                    | Run _ _ => Some "exit status 1"
                    | _ => None
                    end)
        (fun _ _ => 0).

(** A file system where [/srv/git/alpha] is a directory. *)
Definition fs_with_dir : filesystem :=
  fun name => if String.eqb name "/srv/git/alpha" then Some IsDir else None.

(** A file system where [/srv/git/alpha] is a plain file. *)
Definition fs_with_file : filesystem :=
  fun name => if String.eqb name "/srv/git/alpha" then Some IsFile else None.

Definition env_of_fs (fs : filesystem) : Env :=
  mkEnv (fun _ c => match c with
                    | Stat name => os_Stat fs name
                    | _ => None
                    end)
        (fun _ _ => 0).

(** ** What a log-carrying command looks like, and what a trace says *)

(** A command with both output streams sent to the log file [out]. *)
Definition logged (c : Cmd) (out : File) : Cmd :=
  set_Stderr (set_Stdout c out) out.

(** The commands run in a trace, each with whether it succeeded. *)
Fixpoint outcomes (tr : list event) : list (Job * bool) :=
  match tr with
  | [] => []
  | ECall (Run j _) r :: tr' =>
      (j, match r with None => true | Some _ => false end) :: outcomes tr'
  | _ :: tr' => outcomes tr'
  end.

(** Every failed command is followed at once by a console line that carries
    its error. *)
Fixpoint failures_logged (tr : list event) : Prop :=
  match tr with
  | [] => True
  | ECall (Run _ _) (Some e) :: tr' =>
      match tr' with
      | EDo (Printf _ a) :: _ => In (VErr e) a
      | _ => False
      end /\ failures_logged tr'
  | _ :: tr' => failures_logged tr'
  end.

(** Every failed call for which [report] names a console line is followed
    at once by that very line. *)
Fixpoint failures_reported (report : syscall -> error -> option effect)
    (tr : list event) : Prop :=
  match tr with
  | [] => True
  | ECall c (Some e) :: tr' =>
      match report c e with
      | Some m =>
          match tr' with
          | EDo m' :: _ => m' = m
          | _ => False
          end
      | None => True
      end /\ failures_reported report tr'
  | _ :: tr' => failures_reported report tr'
  end.

(** The trace of a skipped project: the stat, the notice, then the deferred
    completion report and nothing else. [n], [c] and [t] are the values the
    three loads of the shared counters return. *)
Definition skip_trace (name : string) (project : Project) (n c t : Z) : list event :=
  [ ECall (Stat name) None;
    EDo (Printf ("%s already exists, skipping..." +:+ LF) [VStr (Name project)]);
    EDo WgDone;
    ELoad Complete n;
    EStore Complete (incr n);
    ELoad Complete c;
    ELoad Total t;
    EDo (Printf ("[%d/%d] Finished migrating %s" +:+ LF)
                [VInt c; VInt t; VStr (Name project)]) ].

(** ** Where a task is, read off its command tree *)

Definition is_mutex_op (e : effect) : bool :=
  match e with
  | MuLock | MuUnlock => true
  | _ => false
  end.

Definition is_chdir (c : syscall) : bool :=
  match c with
  | Chdir _ => true
  | _ => false
  end.

(** The calls of the cleanup span: directory changes and every command but
    the clone. *)
Definition is_cleanup_call (c : syscall) : bool :=
  match c with
  | Chdir _ => true
  | Run Migration _ => false
  | Run _ _ => true
  | _ => false
  end.

(** The same on events. *)
Definition is_cleanup_op (e : event) : bool :=
  match e with
  | ECall c _ => is_cleanup_call c
  | _ => false
  end.

(** A task is outside the critical section, holds the mutex but is not (or
    no longer) in a project directory, or is inside the cleanup span. *)
Inductive phase := Outside | Locked | InSpan.

Definition phase_of (holds spans : bool) : phase :=
  if holds then (if spans then InSpan else Locked) else Outside.

(** [at_phase ph p]: a task that is at phase [ph] and still has [p] to do
    uses the mutex and the working directory in the disciplined way, along
    every path of [p]: it locks only from outside, changes directory and
    runs cleanup commands only while it holds the mutex, unlocks only after
    it has left the span, and returns only once it has unlocked. Of the
    two counters it writes [queue.Complete] only. *)
Inductive at_phase : phase -> prog -> Prop :=
| ph_return : at_phase Outside Return
| ph_call ph c k :
    is_chdir c = false ->
    ph = InSpan \/ is_cleanup_call c = false ->
    (forall r, at_phase ph (k r)) ->
    at_phase ph (Call c k)
| ph_enter d k :
    at_phase InSpan (k None) ->
    (forall e, at_phase Locked (k (Some e))) ->
    at_phase Locked (Call (Chdir d) k)
| ph_leave d k :
    (forall r, at_phase Locked (k r)) ->
    at_phase InSpan (Call (Chdir d) k)
| ph_lock k :
    at_phase Locked k ->
    at_phase Outside (Do MuLock k)
| ph_unlock k :
    at_phase Outside k ->
    at_phase Locked (Do MuUnlock k)
| ph_do ph e k :
    is_mutex_op e = false ->
    at_phase ph k ->
    at_phase ph (Do e k)
| ph_load ph x k :
    (forall n, at_phase ph (k n)) ->
    at_phase ph (Load x k)
| ph_store ph n k :
    at_phase ph k ->
    at_phase ph (Store Complete n k).

(** The coordinator never touches the mutex and starts only disciplined
    tasks. *)
Inductive coordinator : prog -> Prop :=
| co_return : coordinator Return
| co_exit code : coordinator (Exit code)
| co_call c k :
    (forall r, coordinator (k r)) ->
    coordinator (Call c k)
| co_do e k :
    is_mutex_op e = false ->
    coordinator k ->
    coordinator (Do e k)
| co_load x k :
    (forall n, coordinator (k n)) ->
    coordinator (Load x k)
| co_store x n k :
    coordinator k ->
    coordinator (Store x n k)
| co_go t k :
    at_phase Outside t ->
    coordinator k ->
    coordinator (Go t k).

(** Every cleanup operation of a task in the trace was done while that task
    held the mutex. *)
Definition ops_guarded (tr : trace) : Prop :=
  forall tr1 i e tr2,
    tr = (tr1 ++ (i, e) :: tr2)%list ->
    i <> O ->
    is_cleanup_op e = true ->
    holding i tr1 = true.

(** What the proof of mutual exclusion carries along a run. *)
Record invariant (s : state) (tr : trace) : Prop := mkInvariant {
  inv_main : exists m, threads s !! O = Some m /\ coordinator m;
  inv_main_free : holding O tr = false;
  inv_tasks : forall i p,
      threads s !! (S i) = Some p ->
      at_phase (phase_of (holding (S i) tr) (in_span (S i) tr)) p /\
      (in_span (S i) tr = true -> holding (S i) tr = true);
  inv_fresh : forall i,
      (length (threads s) <= i)%nat ->
      holding i tr = false /\ in_span i tr = false;
  inv_mutex :
      if mu s
      then exists h, holding h tr = true /\ forall j, holding j tr = true -> j = h
      else forall j, holding j tr = false;
  inv_guarded : ops_guarded tr
}.

(** What main does once the loop is over. *)
Definition after_loop : prog :=
  (WgWait ;; Println "Migration finished..." ;; Return)%prog.

(** [main_progress m total waited]: main still has [m] to do,
    [queue.Total] is [total], and [waited] says whether [wg.Wait()] has
    returned. Before the loop nothing is counted; in the loop, with the
    projects [done] behind it, main stands before [queue.Add(1)], inside
    it, or before the [go] statement; after the loop every project is
    counted. *)
Inductive main_progress (path_Join : string -> string -> string) (config : Config)
  : prog -> Z -> bool -> Prop :=
| mp_call c k :
    (forall r, main_progress path_Join config (k r) 0 false) ->
    main_progress path_Join config (Call c k) 0 false
| mp_abort format a code :
    main_progress path_Join config (Do (Printf format a) (Exit code)) 0 false
| mp_exit code :
    main_progress path_Join config (Exit code) 0 false
| mp_loop done rest :
    Projects config = (done ++ rest)%list ->
    main_progress path_Join config
      (spawn_all path_Join config rest after_loop)
      (Z.of_nat (length done)) false
| mp_load done p rest :
    Projects config = (done ++ p :: rest)%list ->
    main_progress path_Join config
      (Load Total (fun n =>
         Store Total (incr n)
           (Go (migrate path_Join config p)
               (spawn_all path_Join config rest after_loop))))
      (Z.of_nat (length done)) false
| mp_store done p rest :
    Projects config = (done ++ p :: rest)%list ->
    main_progress path_Join config
      (Store Total (incr (Z.of_nat (length done)))
         (Go (migrate path_Join config p)
             (spawn_all path_Join config rest after_loop)))
      (Z.of_nat (length done)) false
| mp_go done p rest :
    Projects config = (done ++ p :: rest)%list ->
    main_progress path_Join config
      (Go (migrate path_Join config p)
          (spawn_all path_Join config rest after_loop))
      (incr (Z.of_nat (length done))) false
| mp_waited :
    main_progress path_Join config
      (Do (Println "Migration finished...") Return)
      (Z.of_nat (length (Projects config))) true
| mp_return :
    main_progress path_Join config Return
      (Z.of_nat (length (Projects config))) true.

(** Main is where [main_progress] says, with the shared counter. *)
Definition counting (path_Join : string -> string -> string) (config : Config)
  (s : state) (tr : trace) : Prop :=
  exists m,
    threads s !! O = Some m /\
    main_progress path_Join config m (q_Total s) (wait_returned tr).

(** ** Sample schedules *)

(** What is looked at in the outcome of a schedule: has [wg.Wait()]
    returned, the wait group's counter, [queue.Complete], [queue.Total], the
    exit status, and how many goroutines have nothing left to do. *)
Definition is_return (p : prog) : bool :=
  match p with
  | Return => true
  | _ => false
  end.

Definition observe (o : option (trace * state))
  : option (bool * Z * Z * Z * option Z * nat) :=
  match o with
  | Some (tr, s) =>
      Some (wait_returned tr, wg s, q_Complete s, q_Total s, exited s,
            length (List.filter is_return (threads s)))
  | None => None
  end.

Definition moves (i : nat) (n : nat) : schedule := repeat (i, None) n.

(** One project, already present. Main runs up to [wg.Wait()]; the task
    runs through [queue.wg.Done()] and stops there, before
    [queue.Complete++]; main returns from [wg.Wait()], prints and returns. *)
Definition early_wake : schedule :=
  (moves 0 7 ++ moves 1 3 ++ moves 0 3)%list.

(** Two projects, both already present. Both tasks read [queue.Complete]
    before either writes it back; then everything runs to the end. *)
Definition lost_update : schedule :=
  (moves 0 11
   ++ moves 1 3 ++ moves 2 3      (* stat, notice, wg.Done() *)
   ++ moves 1 1 ++ moves 2 1      (* both load Complete *)
   ++ moves 1 1 ++ moves 2 1      (* both store Complete *)
   ++ moves 1 3 ++ moves 2 3      (* the progress lines *)
   ++ moves 0 3)%list.

(** Two projects, neither present. Task 1 clones, takes the mutex and
    enters its directory; task 2 clones and then stands before
    [mu.Lock()]. *)
Definition contended : schedule :=
  (moves 0 11
   ++ [(1%nat, Some "no such file or directory")] ++ moves 1 6
   ++ [(2%nat, Some "no such file or directory")] ++ moves 2 4)%list.

(** Two projects, both already present, and no interleaving inside
    [queue.Done()]: task 1 runs to its end, then task 2, then main. *)
Definition orderly : schedule :=
  (moves 0 11 ++ moves 1 8 ++ moves 2 8 ++ moves 0 3)%list.

(** Which of the goroutines [1] and [2] hold the mutex, which are inside
    the cleanup span, and whether goroutine [2] can take the mutex now. *)
Definition observe_mutex (o : option (trace * state))
  : option (bool * bool * bool * bool * bool) :=
  match o with
  | Some (tr, s) =>
      Some (holding 1 tr, holding 2 tr, in_span 1 tr, in_span 2 tr,
            match step_fn s 2 None with
            | Some _ => true
            | None => false
            end)
  | None => None
  end.

(** ** More to read off a task's trace *)

(** The first deferred function of [migrate] as events: [queue.Done()]
    and the progress line. [n], [c] and [t] are what the three loads
    return. *)
Definition completion_report (project : Project) (n c t : Z) : list event :=
  [ EDo WgDone;
    ELoad Complete n;
    EStore Complete (incr n);
    ELoad Complete c;
    ELoad Total t;
    EDo (Printf ("[%d/%d] Finished migrating %s" +:+ LF)
                [VInt c; VInt t; VStr (Name project)]) ].

(** Does the event touch the shared [queue]? *)
Definition touches_queue (e : event) : bool :=
  match e with
  | EDo (WgAdd _) | EDo WgDone | EDo WgWait => true
  | ELoad _ _ | EStore _ _ => true
  | _ => false
  end.

(** The mutex operations of a trace, in order. *)
Fixpoint mutex_ops (tr : list event) : list effect :=
  match tr with
  | [] => []
  | EDo MuLock :: tr' => MuLock :: mutex_ops tr'
  | EDo MuUnlock :: tr' => MuUnlock :: mutex_ops tr'
  | _ :: tr' => mutex_ops tr'
  end.

(** What the three [defer]s of [migrate] do, in the order it happens. *)
Fixpoint teardown (tr : list event) : list effect :=
  match tr with
  | [] => []
  | EDo MuUnlock :: tr' => MuUnlock :: teardown tr'
  | EDo (Close f) :: tr' => Close f :: teardown tr'
  | EDo WgDone :: tr' => WgDone :: teardown tr'
  | _ :: tr' => teardown tr'
  end.

(** The operations on files of a trace, in order. *)
Fixpoint log_ops (tr : list event) : list effect :=
  match tr with
  | [] => []
  | EDo (WriteString f s) :: tr' => WriteString f s :: log_ops tr'
  | EDo (Close f) :: tr' => Close f :: log_ops tr'
  | _ :: tr' => log_ops tr'
  end.

(** Writes to [f], then one [Close] of [f], and nothing else. *)
Fixpoint written_then_closed (f : File) (ops : list effect) : Prop :=
  match ops with
  | [Close g] => g = f
  | WriteString g _ :: ops' => g = f /\ written_then_closed f ops'
  | _ => False
  end.

(** Every command of the trace has both output streams on one file, and
    its command line was written to that file two operations earlier
    (the console notice comes in between). [before2] and [before1] are
    the two events before the trace. *)
Fixpoint announced (before2 before1 : option event) (tr : list event) : Prop :=
  match tr with
  | [] => True
  | e :: tr' =>
      match e with
      | ECall (Run _ c) _ =>
          match before2 with
          | Some (EDo (WriteString f s)) =>
              s = invocation c /\ Stdout c = Some f /\ Stderr c = Some f
          | _ => False
          end
      | _ => True
      end /\ announced before1 (Some e) tr'
  end.

(** The coordination a trace does: wait-group additions, goroutine starts
    and the wait, in order. *)
Definition is_coordination (e : event) : bool :=
  match e with
  | EDo (WgAdd _) | EDo WgWait => true
  | EGo _ => true
  | _ => false
  end.

Definition coordination (tr : list event) : list event :=
  List.filter is_coordination tr.

(** ** The wait group as a barrier *)

Definition is_wait_group_op (e : effect) : bool :=
  match e with
  | WgAdd _ | WgDone | WgWait => true
  | _ => false
  end.

(** Has goroutine [i] called [queue.wg.Done()] in the trace? *)
Definition signalled (i : nat) (tr : trace) : bool :=
  existsb (fun l => match l with
                    | (j, EDo WgDone) => Nat.eqb j i
                    | _ => false
                    end) tr.

(** The tasks of the process that have not called [queue.wg.Done()]. *)
Definition unsignalled (s : state) (tr : trace) : list nat :=
  List.filter (fun i => negb (signalled i tr)) (seq 1 (length (threads s) - 1)).

(** [signals b p]: a task with [p] left to do calls [queue.wg.Done()]
    exactly once along every path if [b] is [false], and never if [b] is
    [true]; it does not add to the wait group or wait on it, starts no
    goroutine and does not exit the process. *)
Inductive signals : bool -> prog -> Prop :=
| sg_return : signals true Return
| sg_done k :
    signals true k ->
    signals false (Do WgDone k)
| sg_do b e k :
    is_wait_group_op e = false ->
    signals b k ->
    signals b (Do e k)
| sg_call b c k :
    (forall r, signals b (k r)) ->
    signals b (Call c k)
| sg_load b x k :
    (forall n, signals b (k n)) ->
    signals b (Load x k)
| sg_store b x n k :
    signals b k ->
    signals b (Store x n k).

(** [main_at m n reserved waited]: main still has [m] to do, has started
    [n] tasks, has added [reserved] to the wait group for a task it has not
    started yet, and [waited] says whether [wg.Wait()] has returned. *)
Inductive main_at (path_Join : string -> string -> string) (config : Config)
  : prog -> nat -> Z -> bool -> Prop :=
| ma_call c k :
    (forall r, main_at path_Join config (k r) 0 0 false) ->
    main_at path_Join config (Call c k) 0 0 false
| ma_abort format a code :
    main_at path_Join config (Do (Printf format a) (Exit code)) 0 0 false
| ma_exit code :
    main_at path_Join config (Exit code) 0 0 false
| ma_loop done rest :
    Projects config = (done ++ rest)%list ->
    main_at path_Join config
      (spawn_all path_Join config rest after_loop) (length done) 0 false
| ma_load done p rest :
    Projects config = (done ++ p :: rest)%list ->
    main_at path_Join config
      (Load Total (fun n =>
         Store Total (incr n)
           (Go (migrate path_Join config p)
               (spawn_all path_Join config rest after_loop))))
      (length done) 1 false
| ma_store done p rest v :
    Projects config = (done ++ p :: rest)%list ->
    main_at path_Join config
      (Store Total v
         (Go (migrate path_Join config p)
             (spawn_all path_Join config rest after_loop)))
      (length done) 1 false
| ma_go done p rest :
    Projects config = (done ++ p :: rest)%list ->
    main_at path_Join config
      (Go (migrate path_Join config p)
          (spawn_all path_Join config rest after_loop))
      (length done) 1 false
| ma_waited :
    main_at path_Join config
      (Do (Println "Migration finished...") Return)
      (length (Projects config)) 0 true
| ma_return :
    main_at path_Join config Return (length (Projects config)) 0 true.

(** What the proof of the barrier carries along a run: the wait group's
    counter is the number of tasks that have not signalled, plus what main
    has reserved. *)
Record barrier (path_Join : string -> string -> string) (config : Config)
  (s : state) (tr : trace) : Prop := mkBarrier {
  bar_main : exists m n reserved,
      threads s !! O = Some m /\
      main_at path_Join config m n reserved (wait_returned tr) /\
      length (threads s) = S n /\
      wg s = Z.of_nat (length (unsignalled s tr)) + reserved;
  bar_tasks : forall i p,
      threads s !! (S i) = Some p -> signals (signalled (S i) tr) p;
  bar_fresh : forall i,
      (length (threads s) <= i)%nat -> signalled i tr = false;
  bar_waited : wait_returned tr = true -> wg s = 0
}.

(** ** The completed counter *)

(** Has goroutine [i] written [queue.Complete] in the trace? *)
Definition stored (i : nat) (tr : trace) : bool :=
  existsb (fun l => match l with
                    | (j, EStore Complete _) => Nat.eqb j i
                    | _ => false
                    end) tr.

(** The tasks of the process that have written [queue.Complete]. *)
Definition counted (s : state) (tr : trace) : list nat :=
  List.filter (fun i => stored i tr) (seq 1 (length (threads s) - 1)).

(** [increments b p]: a task with [p] left to do executes
    [queue.Complete++] exactly once along every path if [b] is [false],
    and never if [b] is [true]; it writes the counter nowhere else. *)
Inductive increments : bool -> prog -> Prop :=
| in_return : increments true Return
| in_incr k :
    increments true k ->
    increments false (Load Complete (fun n => Store Complete (incr n) k))
| in_do b e k :
    increments b k ->
    increments b (Do e k)
| in_call b c k :
    (forall r, increments b (k r)) ->
    increments b (Call c k)
| in_load x k :
    (forall n, increments true (k n)) ->
    increments true (Load x k).

(** A task is before or after its increment, or between the load and the
    store of it, with a value it has read that is at most [bound]. *)
Definition poised (bound : Z) (has_stored : bool) (p : prog) : Prop :=
  increments has_stored p \/
  (has_stored = false /\
   exists n k, p = Store Complete (incr n) k /\ increments true k /\
               0 <= n <= bound).

(** What the proof of the bound on [queue.Complete] carries along a run. *)
Record tally (s : state) (tr : trace) : Prop := mkTally {
  tally_tasks : forall i p,
      threads s !! (S i) = Some p ->
      poised (Z.of_nat (length (counted s tr))) (stored (S i) tr) p;
  tally_fresh : forall i,
      (length (threads s) <= i)%nat -> stored i tr = false;
  tally_bound : 0 <= q_Complete s <= Z.of_nat (length (counted s tr))
}.

(** ** The assets: [checkAssets] over a disk *)

(** [const tagsSh], [branchesSh], [pegsSh] (raw string literals). *)
Definition tagsSh : string :=
  "for t in $(git for-each-ref --format='%(refname:short)' refs/remotes/tags); do git tag ${t/tags\//} $t && git branch -D -r $t; done".

Definition branchesSh : string :=
  "for b in $(git for-each-ref --format='%(refname:short)' refs/remotes); do git branch $b refs/remotes/$b && git branch -D -r $b; done".

Definition pegsSh : string :=
  "for p in $(git for-each-ref --format='%(refname:short)' | grep @); do git branch -D $p; done".

(** The regular files of the disk: a name has a content or there is no
    such file. *)
Definition disk := string -> option string.

Definition disk_put (name content : string) (d : disk) : disk :=
  fun n => if String.eqb n name then Some content else d n.

(** What the outside world makes fail. The ten file operations of
    [checkAssets] are numbered in program order, from 0; [fails n] is the
    error of operation [n], if it fails, and [written n] the number of
    bytes a failing write has put down before it failed. *)
Record Faults := mkFaults {
  fails : nat -> option error;
  written : nat -> nat
}.

(** [os.Create(name)]: the file exists and is empty afterwards. *)
Definition os_Create (f : Faults) (n : nat) (name : string) (d : disk)
  : option error * disk :=
  match fails f n with
  | Some e => (Some e, d)
  | None => (None, disk_put name "" d)
  end.

(** [file.WriteString(data)] and [file.Write(data)] on a file that has just
    been created: the content is [data], or a prefix of it on failure. *)
Definition file_Write (f : Faults) (n : nat) (name data : string) (d : disk)
  : option error * disk :=
  match fails f n with
  | Some e => (Some e, disk_put name (substring 0 (written f n) data) d)
  | None => (None, disk_put name data d)
  end.

(** [os.Open(name)]: there must be such a file. *)
Definition os_Open (f : Faults) (n : nat) (name : string) (d : disk)
  : option error :=
  match d name with
  | None => Some ("open " +:+ name +:+ ": no such file or directory")
  | Some _ => fails f n
  end.

(** [ioutil.ReadAll(file)]: the whole content. *)
Definition ioutil_ReadAll (f : Faults) (n : nat) (name : string) (d : disk)
  : option error * string :=
  match fails f n with
  | Some e => (Some e, "")
  | None => (None, match d name with Some content => content | None => "" end)
  end.

(** What [checkAssets] leaves behind: its result, the disk, and the files
    it has closed, in the order it closed them. *)
Record Outcome := mkOutcome {
  result : option error;
  disk_after : disk;
  closed : list File
}.

Section Assets.

Variable path_Join : string -> string -> string.
Variable config : Config.

(** [func checkAssets() error]. [deferred] holds the files whose
    [defer f.Close()] has been reached, the latest first: that is the
    order in which they are closed when the function returns. *)
Definition checkAssets (f : Faults) (d : disk) : Outcome :=
  let tags := path_Join (BasePath config) "tags.sh" in
  match os_Create f 0 tags d with
  | (Some err, d) => mkOutcome (Some err) d []
  | (None, d) =>
  match file_Write f 1 tags tagsSh d with
  | (Some err, d) => mkOutcome (Some err) d []
  | (None, d) =>
  let deferred := [tags] in
  let branches := path_Join (BasePath config) "branches.sh" in
  match os_Create f 2 branches d with
  | (Some err, d) => mkOutcome (Some err) d deferred
  | (None, d) =>
  match file_Write f 3 branches branchesSh d with
  | (Some err, d) => mkOutcome (Some err) d deferred
  | (None, d) =>
  let deferred := branches :: deferred in
  let pegs := path_Join (BasePath config) "pegs.sh" in
  match os_Create f 4 pegs d with
  | (Some err, d) => mkOutcome (Some err) d deferred
  | (None, d) =>
  match file_Write f 5 pegs pegsSh d with
  | (Some err, d) => mkOutcome (Some err) d deferred
  | (None, d) =>
  let deferred := pegs :: deferred in
  match os_Open f 6 (UsersPath config) d with
  | Some err => mkOutcome (Some err) d deferred
  | None =>
  let deferred := UsersPath config :: deferred in
  match ioutil_ReadAll f 7 (UsersPath config) d with
  | (Some err, _) => mkOutcome (Some err) d deferred
  | (None, users) =>
  let users_txt := path_Join (BasePath config) "users.txt" in
  match os_Create f 8 users_txt d with
  | (Some err, d) => mkOutcome (Some err) d deferred
  | (None, d) =>
  match file_Write f 9 users_txt users d with
  | (Some err, d) => mkOutcome (Some err) d deferred
  | (None, d) =>
  let deferred := users_txt :: deferred in
  mkOutcome None d deferred
  end end end end end end end end end end.

(** The disk once the three scripts have been written. *)
Definition with_scripts (d : disk) : disk :=
  disk_put (path_Join (BasePath config) "pegs.sh") pegsSh
    (disk_put (path_Join (BasePath config) "branches.sh") branchesSh
       (disk_put (path_Join (BasePath config) "tags.sh") tagsSh d)).

End Assets.

(** Nothing fails. *)
Definition no_faults : Faults := mkFaults (fun _ => None) (fun _ => O).

(** The write of [branches.sh] fails after 10 bytes. *)
Definition short_write : Faults :=
  mkFaults (fun n => match n with
                     | 3%nat => Some "no space left on device"
                     | _ => None
                     end)
           (fun _ => 10%nat).

(** A disk with a users file and nothing else. *)
Definition users_disk : disk :=
  fun n => if String.eqb n "/srv/users.txt" then Some "alice = Alice <a@x>" else None.

Definition empty_disk : disk := fun _ => None.

(** ** More sample inputs *)

(** As [fresh_env], but the clone fails. *)
Definition failing_clone_env : Env :=
  mkEnv (fun _ c => match c with
                    | Stat _ => Some "no such file or directory"
                    | Run Migration _ => Some "exit status 128"
                    | _ => None
                    end)
        (fun _ _ => 0).

(** As [fresh_env], but the log file cannot be created. *)
Definition no_log_env : Env :=
  mkEnv (fun _ c => match c with
                    | Stat _ => Some "no such file or directory"
                    | Create _ => Some "permission denied"
                    | _ => None
                    end)
        (fun _ _ => 0).

(** ** Properties of one task *)

Section TaskProperties.

Variable path_Join : string -> string -> string.
Variable config : Config.

Local Abbreviation task := (migrate path_Join config).
Local Abbreviation base := (BasePath config).
Local Abbreviation dir_of p := (path_Join (BasePath config) (Name p)).
Local Abbreviation log_of p := (path_Join (BasePath config) (Name p +:+ ".log")).
Local Abbreviation script s :=
  (exec_Command (BashPath config) [path_Join (BasePath config) s]).

(** The clone command of project [p], as it should come out. *)
Local Abbreviation clone_of p :=
  (logged (exec_Command "git"
             ["svn"; "clone"; SVN p; "--authors-file=users.txt";
              "--no-metadata"; "--prefix"; if Standard p then "-s" else "";
              Name p]) (log_of p)).

(** The deletion of the leftover branch of [p], as it should come out. *)
Local Abbreviation deletion_of p :=
  (logged (exec_Command "git"
             ["branch"; "-d"; if Standard p then "trunk" else "git-svn"])
          (log_of p)).

(** The console line that reports the failure [e] of the call [c] of the
    task of [p], as it should come out; the failed [os.Stat] is the
    ordinary case and has none. *)
Local Abbreviation report_of p :=
  (fun (c : syscall) (e : error) =>
     match c with
     | Create _ =>
         Some (Printf ("Could not open log file for %s: %v" +:+ LF)
                      [VStr (Name p); VErr e])
     | Run Migration _ =>
         Some (Printf ("Could not migrate %s: %v" +:+ LF) [VStr (Name p); VErr e])
     | Chdir _ =>
         Some (Printf ("Could not change directory: %v" +:+ LF) [VErr e])
     | Run Tags _ =>
         Some (Printf ("Could not convert tags for %s: %v" +:+ LF)
                      [VStr (Name p); VErr e])
     | Run Branches _ =>
         Some (Printf ("Could not convert branches for %s: %v" +:+ LF)
                      [VStr (Name p); VErr e])
     | Run Pegs _ =>
         Some (Printf ("Could not convert the peg-revisions for %s: %v" +:+ LF)
                      [VStr (Name p); VErr e])
     | Run Old _ =>
         Some (Printf ("Could not delete the %s branch: %v" +:+ LF)
                      [VStr (if Standard p then "trunk" else "git-svn"); VErr e])
     | _ => None
     end).

Local Opaque incr LF.

(** Symbolic execution of [run] inside [H], one operation at a time, with
    a case split on every answer the environment gives (unless a
    hypothesis already fixes it). *)
Ltac exec_in H :=
  repeat lazymatch type of H with
  | context [run ?env ?n ?P] =>
      let P' := eval hnf in P in
      lazymatch P' with
      | Return => change (run env n P) with (@nil event) in H
      | Exit ?z => change (run env n P) with [EExit z] in H
      | Call ?c ?k =>
          change (run env n P)
            with (ECall c (respond env n c) :: run env (S n) (k (respond env n c))) in H;
          first
            [ match goal with
              | Hr : respond env n c = _ |- _ => rewrite Hr in H
              end
            | let E := fresh "E" in destruct (respond env n c) eqn:E ]
      | Do ?e ?k => change (run env n P) with (EDo e :: run env (S n) k) in H
      | Load ?x ?k =>
          change (run env n P)
            with (ELoad x (recall env n x) :: run env (S n) (k (recall env n x))) in H
      | Store ?x ?v ?k => change (run env n P) with (EStore x v :: run env (S n) k) in H
      end
  end.

(** Name the trace, execute it, and put the result in place. *)
Ltac cases_of tr :=
  let Htr := fresh "Htr" in
  pose proof (eq_refl : tr = run _ 0 (task _)) as Htr;
  clearbody tr; exec_in Htr; subst tr.

(** Membership in an explicit list. *)
Ltac find_in :=
  cbn [In]; repeat first [ left; reflexivity | right ].

Ltac pick H :=
  cbn [In] in H;
  repeat (destruct H as [H | H]; [try discriminate H |]);
  try contradiction.

(** The only command a task runs from [migration] is the clone command. *)
Lemma clone_event (p : Project) (env : Env) (c : Cmd) (r : option error) :
  In (ECall (Run Migration c) r) (run env 0 (task p)) ->
  c = clone_of p.
Proof.
  set (tr := run env 0 (task p)). intros H. cases_of tr.
  all: pick H; injection H as <- _; reflexivity.
Qed.

(** When [os.Stat] succeeds the task does nothing but report completion. *)
Lemma stat_ok_skips (p : Project) (env : Env) :
  respond env 0 (Stat (dir_of p)) = None ->
  run env 0 (task p) =
    skip_trace (dir_of p) p (recall env 3 Complete) (recall env 5 Complete)
               (recall env 6 Total).
Proof.
  intros Hstat. set (tr := run env 0 (task p)). cases_of tr. reflexivity.
Qed.

Lemma skip_trace_quiet (name : string) (p : Project) (n c t : Z) :
  let tr := skip_trace name p n c t in
  jobs tr = [] /\
  (forall f r, ~ In (ECall (Create f) r) tr) /\
  In (EDo WgDone) tr /\
  In (EStore Complete (incr n)) tr.
Proof.
  intros tr. subst tr. unfold skip_trace. repeat split.
  - intros f r H. pick H.
  - find_in.
  - find_in.
Qed.

(** C3, as amended. For every project whose clone step succeeds, what
    follows depends on the change into the project's own directory. When
    that change succeeds, the mutex operations, directory changes and
    commands of the task are exactly: the clone, one [Lock], the change
    into the project's directory, the tags, the branches and the pegs
    script in that order, the branch deletion, the attempt to change back
    to the base path, and one [Unlock]. So the three cleanup jobs run in
    the order tags, branches, pegs, bracketed by the two directory
    changes, all within a single hold of the mutex. When that change
    fails, they are exactly: the clone, one [Lock], the failed change and
    one [Unlock], so no cleanup job runs and the mutex is released. In
    both cases every failed call, a failed directory change included, is
    followed at once by the console line that reports it. *)
Theorem cleanup_jobs_in_order (p : Project) (env : Env) :
  let tr := run env 0 (task p) in
  In (Migration, true) (outcomes tr) ->
  failures_reported (report_of p) tr /\
  ((exists r1 r2 r3 r4 r5,
      key_events tr =
        [ ECall (Run Migration (clone_of p)) None;
          EDo MuLock;
          ECall (Chdir (dir_of p)) None;
          ECall (Run Tags (logged (script "tags.sh") (log_of p))) r1;
          ECall (Run Branches (logged (script "branches.sh") (log_of p))) r2;
          ECall (Run Pegs (logged (script "pegs.sh") (log_of p))) r3;
          ECall (Run Old (deletion_of p)) r4;
          ECall (Chdir base) r5;
          EDo MuUnlock ]) \/
   (exists e,
      key_events tr =
        [ ECall (Run Migration (clone_of p)) None;
          EDo MuLock;
          ECall (Chdir (dir_of p)) (Some e);
          EDo MuUnlock ] /\
      jobs tr = [Migration])).
Proof.
  intros tr. cases_of tr; intros Hclone.
  all: cbn [outcomes] in Hclone.
  all: try (pick Hclone; fail).
  all: clear Hclone.
  all: split; [cbn [failures_reported]; repeat split; reflexivity |].
  all: first [ left; do 5 eexists; reflexivity
             | right; eexists; split; reflexivity ].
Qed.

(** C4. For every project in the cleanup phase (its tags script was
    started), the four cleanup commands all run, in order and each with
    its own command line and the log file on both output streams,
    whatever the result of each: [bash tags.sh], [bash branches.sh],
    [bash pegs.sh] and [git branch -d] of the leftover branch. A failed
    tags script is therefore followed by the branches script, the pegs
    script and the branch deletion. Every failure is followed at once by
    the console line that names the failed step and carries the error,
    and the task still changes back to the base path, unlocks, closes its
    log and reports completion. *)
Theorem cleanup_failure_does_not_stop (p : Project) (env : Env) :
  let tr := run env 0 (task p) in
  In Tags (jobs tr) ->
  (exists r1 r2 r3 r4 r5,
     key_events tr =
       [ ECall (Run Migration (clone_of p)) None;
         EDo MuLock;
         ECall (Chdir (dir_of p)) None;
         ECall (Run Tags (logged (script "tags.sh") (log_of p))) r1;
         ECall (Run Branches (logged (script "branches.sh") (log_of p))) r2;
         ECall (Run Pegs (logged (script "pegs.sh") (log_of p))) r3;
         ECall (Run Old (deletion_of p)) r4;
         ECall (Chdir base) r5;
         EDo MuUnlock ]) /\
  jobs tr = [Migration; Tags; Branches; Pegs; Old] /\
  failures_reported (report_of p) tr /\
  failures_logged tr /\
  (exists r, In (ECall (Chdir base) r) tr) /\
  In (EDo MuUnlock) tr /\
  In (EDo (Close (log_of p))) tr /\
  In (EDo WgDone) tr.
Proof.
  intros tr. cases_of tr; intros Htags.
  all: cbn [jobs] in Htags; try (pick Htags; fail); clear Htags.
  all: split; [do 5 eexists; reflexivity |].
  all: split; [reflexivity |].
  all: split; [cbn [failures_reported]; repeat split; reflexivity |].
  all: split; [cbn [failures_logged In]; repeat split; auto |].
  all: split; [eexists; find_in |].
  all: repeat split; find_in.
Qed.

(** C5, as amended. The clone command of every project is [git svn clone]
    with: the project's source location, the authors file [users.txt],
    the flag [--no-metadata], and the flag [--prefix], which is there for
    every project, standard or not; what depends on the variant is the
    argument after it, [-s] exactly when the project is standard and the
    empty string exactly when it is not. The project's name comes last. *)
Theorem clone_parameters (p : Project) (env : Env) (c : Cmd) (r : option error) :
  In (ECall (Run Migration c) r) (run env 0 (task p)) ->
  Path c = "git" /\
  Args c !! 1%nat = Some "svn" /\
  Args c !! 2%nat = Some "clone" /\
  Args c !! 3%nat = Some (SVN p) /\
  Args c !! 4%nat = Some "--authors-file=users.txt" /\
  Args c !! 5%nat = Some "--no-metadata" /\
  Args c !! 6%nat = Some "--prefix" /\
  (Args c !! 7%nat = Some "-s" <-> Standard p = true) /\
  (Args c !! 7%nat = Some "" <-> Standard p = false) /\
  Args c !! 8%nat = Some (Name p) /\
  length (Args c) = 9%nat.
Proof.
  intros H. apply clone_event in H. subst c. cbn.
  destruct (Standard p); repeat split; intros; congruence.
Qed.

(** C6. The clone invocation of every project carries the standard-prefix
    flag [-s] if and only if the project is standard-layout: the flag is
    the argument the code takes from [std] and puts right after
    [--prefix], and that argument is [-s] exactly for a standard project.
    A standard project's argument list therefore contains [-s]; in a
    non-standard project's the string [-s] occurs nowhere as a flag, only
    where the project's own source location or name is that very
    string. *)
Theorem std_flag_follows_prefix (p : Project) (env : Env) (c : Cmd) (r : option error) :
  In (ECall (Run Migration c) r) (run env 0 (task p)) ->
  Args c !! 6%nat = Some "--prefix" /\
  (Args c !! 7%nat = Some "-s" <-> Standard p = true) /\
  (Standard p = true -> In "-s" (Args c)) /\
  (Standard p = false ->
   forall i, Args c !! i = Some "-s" ->
             (i = 3%nat /\ SVN p = "-s") \/ (i = 8%nat /\ Name p = "-s")).
Proof.
  intros H. apply clone_event in H. subst c. cbn.
  split; [reflexivity |]. split; [| split].
  - destruct (Standard p); split; intros; congruence.
  - intros ->. find_in.
  - intros -> i Hi.
    destruct i as [| [| [| [| [| [| [| [| [| i]]]]]]]]];
      cbn in Hi; try discriminate Hi.
    + left. split; congruence.
    + right. split; congruence.
Qed.


(** C8. For every project for which a directory of the project's name
    exists at the base path, the task is skipped: its only call is the
    [os.Stat], so no clone is run and no log file is created, and it goes
    straight to the deferred completion report ([queue.Done()] and the
    progress line). *)
Theorem existing_directory_skips (p : Project) (env : Env) (fs : filesystem) :
  stat_from fs env ->
  fs (dir_of p) = Some IsDir ->
  let tr := run env 0 (task p) in
  (exists n c t, tr = skip_trace (dir_of p) p n c t) /\
  calls tr = [(Stat (dir_of p), None)] /\
  jobs tr = [] /\
  (forall f r, ~ In (ECall (Create f) r) tr) /\
  In (EDo WgDone) tr.
Proof.
  intros Henv Hdir tr.
  assert (Hstat : respond env 0 (Stat (dir_of p)) = None).
  { rewrite Henv. unfold os_Stat. rewrite Hdir. reflexivity. }
  subst tr. rewrite (stat_ok_skips p env Hstat).
  split; [eauto |]. split; [reflexivity |].
  pose proof (skip_trace_quiet (dir_of p) p (recall env 3 Complete)
                (recall env 5 Complete) (recall env 6 Total)) as Hq.
  cbv zeta in Hq. tauto.
Qed.

(** C9. For every project that is cloned, the argument list of the clone
    command contains [--prefix] followed by one value argument, which is
    [-s] for a standard project and the empty string for a non-standard
    one; the project's name follows. *)
Theorem prefix_takes_std_as_value (p : Project) (env : Env) (c : Cmd) (r : option error) :
  In (ECall (Run Migration c) r) (run env 0 (task p)) ->
  Args c =
    (["git"; "svn"; "clone"; SVN p; "--authors-file=users.txt"; "--no-metadata"]
     ++ ["--prefix"; if Standard p then "-s" else ""]
     ++ [Name p])%list.
Proof.
  intros H. apply clone_event in H. subst c. reflexivity.
Qed.

(** C10. The skip check looks at nothing but the error of [os.Stat]: for
    every project for which [os.Stat] of the path succeeds, whatever is
    there, directory or plain file, the task is skipped. *)
Theorem any_entry_skips (p : Project) (env : Env) (fs : filesystem) (kind : entry) :
  stat_from fs env ->
  fs (dir_of p) = Some kind ->
  let tr := run env 0 (task p) in
  respond env 0 (Stat (dir_of p)) = None /\
  (exists n c t, tr = skip_trace (dir_of p) p n c t) /\
  calls tr = [(Stat (dir_of p), None)] /\
  jobs tr = [].
Proof.
  intros Henv Hent tr.
  assert (Hstat : respond env 0 (Stat (dir_of p)) = None).
  { rewrite Henv. unfold os_Stat. rewrite Hent. reflexivity. }
  subst tr. rewrite (stat_ok_skips p env Hstat).
  split; [exact Hstat |]. split; [eauto |]. split; reflexivity.
Qed.

(** Cut the explicit trace of [H] in front of [queue.wg.Done()]. *)
Ltac cut_at_done H :=
  lazymatch type of H with
  | _ = ?l =>
      let rec go pre l :=
        lazymatch l with
        | EDo WgDone :: _ => exists (rev pre)
        | ?x :: ?rest => go (x :: pre) rest
        end in
      go (@nil event) l
  end.

(** X5. On every path through [migrate] (skip, no log file, failed clone,
    failed change of directory, full cleanup) the task ends with
    [queue.Done()] and the progress line, and touches the queue nowhere
    before: completion is signalled exactly once and last. *)
Theorem completion_reported_once_and_last (p : Project) (env : Env) :
  exists pre n c t,
    run env 0 (task p) = (pre ++ completion_report p n c t)%list /\
    List.filter touches_queue pre = [].
Proof.
  set (tr := run env 0 (task p)).
  pose proof (eq_refl : tr = run env 0 (task p)) as Htr.
  clearbody tr. exec_in Htr.
  all: cut_at_done Htr; subst tr; do 3 eexists; split; reflexivity.
Qed.

(** X6. The mutex is taken exactly when the clone has succeeded: then it is
    locked once and unlocked once, whatever happens in between (also when
    a change of directory fails); otherwise it is not touched. *)
Theorem mutex_taken_iff_cloned (p : Project) (env : Env) :
  let tr := run env 0 (task p) in
  (In (Migration, true) (outcomes tr) -> mutex_ops tr = [MuLock; MuUnlock]) /\
  (~ In (Migration, true) (outcomes tr) -> mutex_ops tr = []).
Proof.
  intros tr. cases_of tr; cbn [outcomes mutex_ops]; split; intros H.
  all: first [ reflexivity | pick H; fail | exfalso; apply H; find_in ].
Qed.

(** X7. A failed clone ends the task: the error goes to the console, the log
    file is closed and completion is reported; the mutex is not taken and
    no further call is made. *)
Theorem failed_clone_ends_task (p : Project) (env : Env) :
  let tr := run env 0 (task p) in
  In (Migration, false) (outcomes tr) ->
  exists e0 e,
    calls tr = [ (Stat (dir_of p), Some e0);
                 (Create (log_of p), None);
                 (Run Migration (clone_of p), Some e) ] /\
    In (EDo (Printf ("Could not migrate %s: %v" +:+ LF) [VStr (Name p); VErr e])) tr /\
    mutex_ops tr = [] /\
    teardown tr = [Close (log_of p); WgDone].
Proof.
  intros tr. cases_of tr; intros H; cbn [outcomes] in H.
  all: try (pick H; fail); clear H.
  all: do 2 eexists; split; [reflexivity |]; split; [find_in |];
       split; reflexivity.
Qed.

(** X8. When the log file cannot be created the task gives up at once: no
    command is run, nothing is written or closed, the error goes to the
    console and completion is reported. *)
Theorem failed_log_ends_task (p : Project) (env : Env) (e : error) :
  let tr := run env 0 (task p) in
  In (Create (log_of p), Some e) (calls tr) ->
  exists e0,
    calls tr = [ (Stat (dir_of p), Some e0); (Create (log_of p), Some e) ] /\
    In (EDo (Printf ("Could not open log file for %s: %v" +:+ LF)
                    [VStr (Name p); VErr e])) tr /\
    log_ops tr = [] /\
    teardown tr = [WgDone].
Proof.
  intros tr. cases_of tr; intros H; cbn [calls] in H.
  all: try (pick H; fail).
  all: pick H; injection H as <-.
  all: eexists; split; [reflexivity |]; split; [find_in |]; split; reflexivity.
Qed.

(** X9. The deferred calls run in reverse order of their [defer] statements:
    unlock, then close the log, then report completion. The log file is
    closed exactly when it was created, once, after the last write to it,
    and every write goes to the project's own log. *)
Theorem deferred_calls_in_reverse_order (p : Project) (env : Env) :
  let tr := run env 0 (task p) in
  (In (Create (log_of p), None) (calls tr) /\
   written_then_closed (log_of p) (log_ops tr) /\
   (teardown tr = [Close (log_of p); WgDone] \/
    teardown tr = [MuUnlock; Close (log_of p); WgDone])) \/
  (~ In (Create (log_of p), None) (calls tr) /\
   log_ops tr = [] /\
   teardown tr = [WgDone]).
Proof.
  intros tr. cases_of tr; cbn [calls log_ops teardown].
  all: first
         [ right; split; [intros H; pick H |]; split; reflexivity
         | left; split; [find_in |];
           split; [cbn [written_then_closed]; repeat split; reflexivity |];
           first [left; reflexivity | right; reflexivity] ].
Qed.

(** X10. Every command of a task has its standard output and standard error on
    the project's log file, and its command line ([Args] joined by
    spaces, then a line feed) is written to that file before it runs. *)
Theorem commands_announced_in_log (p : Project) (env : Env) :
  announced None None (run env 0 (task p)).
Proof.
  set (tr := run env 0 (task p)). cases_of tr.
  all: cbn [announced]; repeat split; reflexivity.
Qed.

End TaskProperties.

(** ** Properties of the coordinator *)

Section CoordinatorProperties.

Variable path_Join : string -> string -> string.
Variable config : Config.

Local Open Scope list_scope.

(** The loop of [main] adds one to the wait group and then starts the
    task, project by project, in the order of the configuration. *)
Lemma coordination_of_loop (projects : list Project) :
  forall (env : Env) (n : nat) (k : prog),
    coordination (run env n (spawn_all path_Join config projects k)) =
      flat_map (fun p => [EDo (WgAdd 1); EGo (migrate path_Join config p)]) projects
      ++ coordination (run env (n + 4 * length projects) k).
Proof.
  induction projects as [| p rest IH]; intros env n k.
  - cbn [spawn_all flat_map length app]. rewrite Nat.mul_0_r, Nat.add_0_r.
    reflexivity.
  - cbn [spawn_all flat_map length]. unfold Queue_Add, coordination.
    cbn [run List.filter is_coordination app].
    do 2 f_equal. fold (coordination (run env (S (S (S (S n))))
                                        (spawn_all path_Join config rest k))).
    rewrite IH. do 3 f_equal. lia.
Qed.

(** X11. When the change into the base path and the generation of the assets
    succeed, [main] starts exactly one task per configured project, in
    configuration order, each right after its own [queue.Add(1)], then
    waits once, and its last act is the line [Migration finished...].
    With no project it waits at once. *)
Theorem main_starts_one_task_per_project (env : Env) :
  respond env 1 (Chdir (BasePath config)) = None ->
  respond env 2 CheckAssets = None ->
  let tr := run env 0 (main path_Join config) in
  coordination tr =
    flat_map (fun p => [EDo (WgAdd 1); EGo (migrate path_Join config p)])
             (Projects config)
    ++ [EDo WgWait] /\
  last tr = Some (EDo (Println "Migration finished...")).
Proof.
  intros Hc Ha tr. subst tr. unfold main. cbn [run]. rewrite Hc. cbn [run].
  rewrite Ha. split.
  - unfold coordination. cbn [List.filter is_coordination].
    fold (coordination (run env 3 (spawn_all path_Join config (Projects config)
                                     (WgWait;; Println "Migration finished...";; Return)))).
    rewrite coordination_of_loop. reflexivity.
  - rewrite !last_cons.
    assert (Hlast : forall n,
               last (run env n (spawn_all path_Join config (Projects config)
                                  (WgWait;; Println "Migration finished...";; Return)))
               = Some (EDo (Println "Migration finished..."))).
    { induction (Projects config) as [| p rest IH]; intros n.
      - reflexivity.
      - cbn [spawn_all]. unfold Queue_Add. cbn [run].
        rewrite !last_cons, IH. reflexivity. }
    rewrite Hlast. reflexivity.
Qed.

(** X12. When the change into the base path fails, or the generation of the
    assets fails, [main] prints the error and exits with status 1: there
    is no [queue.Add], no task is started and nothing is waited for. *)
Theorem main_aborts_before_any_task (env : Env) (e : error) :
  respond env 1 (Chdir (BasePath config)) = Some e \/
  (respond env 1 (Chdir (BasePath config)) = None /\
   respond env 2 CheckAssets = Some e) ->
  let tr := run env 0 (main path_Join config) in
  coordination tr = [] /\
  exists pre format,
    tr = pre ++ [EDo (Printf format [VErr e]); EExit 1] /\
    forall code, ~ In (EExit code) pre.
Proof.
  intros [Hc | [Hc Ha]] tr; subst tr; unfold main; cbn [run]; rewrite Hc;
    cbn [run]; rewrite ?Ha; cbn [run].
  - split; [reflexivity |].
    exists [ECall (DecodeFile "projects.toml") (respond env 0 (DecodeFile "projects.toml"));
            ECall (Chdir (BasePath config)) (Some e)].
    eexists. split; [reflexivity |].
    intros code [H | [H | []]]; discriminate H.
  - split; [reflexivity |].
    exists [ECall (DecodeFile "projects.toml") (respond env 0 (DecodeFile "projects.toml"));
            ECall (Chdir (BasePath config)) None;
            ECall CheckAssets (Some e)].
    eexists. split; [reflexivity |].
    intros code [H | [H | [H | []]]]; discriminate H.
Qed.

End CoordinatorProperties.

(** ** Properties of [checkAssets] *)

Section AssetProperties.

Variable path_Join : string -> string -> string.
Variable config : Config.

Local Abbreviation tags := (path_Join (BasePath config) "tags.sh").
Local Abbreviation branches := (path_Join (BasePath config) "branches.sh").
Local Abbreviation pegs := (path_Join (BasePath config) "pegs.sh").
Local Abbreviation users_txt := (path_Join (BasePath config) "users.txt").
Local Abbreviation assets := (checkAssets path_Join config).

Local Opaque tagsSh branchesSh pegsSh.

Ltac unfold_assets :=
  unfold checkAssets, os_Create, file_Write, os_Open, ioutil_ReadAll.

(** Settle every comparison of names in a lookup. *)
Ltac by_names :=
  unfold with_scripts, disk_put in *;
  repeat match goal with
    | |- context [String.eqb ?a ?b] => destruct (String.eqb a b)
    | H : context [String.eqb ?a ?b] |- _ => destruct (String.eqb a b)
    end;
  congruence.

(** X13. [checkAssets] returns [nil] exactly when none of its ten operations
    fails and the users file is there when it is opened, which is after
    the three scripts have been written. *)
Theorem checkAssets_succeeds_iff (f : Faults) (d : disk) :
  result (assets f d) = None <->
  (forall n, (n < 10)%nat -> fails f n = None) /\
  with_scripts path_Join config d (UsersPath config) <> None.
Proof.
  split.
  - intros H.
    unfold checkAssets, os_Create, file_Write, os_Open, ioutil_ReadAll in H.
    destruct (fails f 0) eqn:E0; [discriminate H |].
    destruct (fails f 1) eqn:E1; [discriminate H |].
    destruct (fails f 2) eqn:E2; [discriminate H |].
    destruct (fails f 3) eqn:E3; [discriminate H |].
    destruct (fails f 4) eqn:E4; [discriminate H |].
    destruct (fails f 5) eqn:E5; [discriminate H |].
    match type of H with
    | context [disk_put pegs pegsSh ?d0 (UsersPath config)] =>
        destruct (disk_put pegs pegsSh d0 (UsersPath config)) eqn:Hopen;
        [| discriminate H]
    end.
    destruct (fails f 6) eqn:E6; [discriminate H |].
    destruct (fails f 7) eqn:E7; [discriminate H |].
    destruct (fails f 8) eqn:E8; [discriminate H |].
    destruct (fails f 9) eqn:E9; [discriminate H |].
    split.
    + intros n Hn.
      do 10 (destruct n as [| n]; [assumption |]). lia.
    + clear H. by_names.
  - intros [Hf Hu]. unfold_assets. rewrite !Hf by lia.
    match goal with
    | |- context [disk_put pegs pegsSh ?d0 (UsersPath config)] =>
        destruct (disk_put pegs pegsSh d0 (UsersPath config)) eqn:Hopen
    end.
    + reflexivity.
    + exfalso. apply Hu. clear Hu. by_names.
Qed.

(** X14. When nothing fails, [checkAssets] leaves the three scripts with their
    fixed texts and [users.txt] with what the users file holds once the
    scripts are written (its own content, unless it is one of the three
    script files), and it has closed the five files it opened, the latest
    first. *)
Theorem checkAssets_writes_the_assets (f : Faults) (d : disk) (users : string) :
  (forall n, (n < 10)%nat -> fails f n = None) ->
  with_scripts path_Join config d (UsersPath config) = Some users ->
  result (assets f d) = None /\
  (forall n, disk_after (assets f d) n =
             disk_put users_txt users (with_scripts path_Join config d) n) /\
  closed (assets f d) = [users_txt; UsersPath config; pegs; branches; tags].
Proof.
  intros Hf Hu. unfold_assets. rewrite !Hf by lia.
  match goal with
  | |- context [disk_put pegs pegsSh ?d0 (UsersPath config)] =>
      destruct (disk_put pegs pegsSh d0 (UsersPath config))
        as [content |] eqn:Hopen
  end.
  - assert (content = users) as -> by (clear Hf; by_names).
    cbn. split; [reflexivity |]. split; [| reflexivity].
    intros n. clear. by_names.
  - exfalso. clear Hf. by_names.
Qed.

(** X15. When the users file is not there, [checkAssets] returns the error of
    [os.Open] after it has written the three scripts; it closes them, the
    latest first, and does not create [users.txt]. *)
Theorem checkAssets_without_users_file (f : Faults) (d : disk) :
  (forall n, (n < 6)%nat -> fails f n = None) ->
  with_scripts path_Join config d (UsersPath config) = None ->
  result (assets f d) =
    Some ("open " +:+ UsersPath config +:+ ": no such file or directory") /\
  (forall n, disk_after (assets f d) n = with_scripts path_Join config d n) /\
  closed (assets f d) = [pegs; branches; tags].
Proof.
  intros Hf Hu. unfold_assets. rewrite !Hf by lia.
  match goal with
  | |- context [disk_put pegs pegsSh ?d0 (UsersPath config)] =>
      destruct (disk_put pegs pegsSh d0 (UsersPath config))
        as [content |] eqn:Hopen
  end.
  - exfalso. clear Hf. by_names.
  - cbn. split; [reflexivity |]. split; [| reflexivity].
    intros n. clear. by_names.
Qed.

(** X16. Whatever fails, the files [checkAssets] has closed when it returns are
    a final segment of: [users.txt], the users file, [pegs.sh],
    [branches.sh], [tags.sh]. Files are closed in the reverse order of
    their creation, and a later file is closed only if all earlier ones
    are. *)
Theorem checkAssets_closes_in_reverse_order (f : Faults) (d : disk) :
  closed (assets f d) `suffix_of`
    [users_txt; UsersPath config; pegs; branches; tags].
Proof.
  unfold_assets.
  repeat match goal with
    | |- context [fails f ?n] => destruct (fails f n)
    | |- context [match ?x with Some _ => _ | None => _ end] => destruct x
    end; cbn [closed].
  all: first
         [ exists []; reflexivity
         | exists [users_txt]; reflexivity
         | exists [users_txt; UsersPath config]; reflexivity
         | exists [users_txt; UsersPath config; pegs]; reflexivity
         | exists [users_txt; UsersPath config; pegs; branches]; reflexivity
         | exists [users_txt; UsersPath config; pegs; branches; tags]; reflexivity ].
Qed.

(** X17. A script whose write fails is left open: when the write of the
    [k]-th script is the first operation to fail, [checkAssets] returns
    that error, the file holds the bytes written so far, and only the
    scripts before it have been closed. *)
Theorem failed_write_leaves_script_open
        (f : Faults) (d : disk) (k : nat) (name data : string) (e : error) :
  [(tags, tagsSh); (branches, branchesSh); (pegs, pegsSh)] !! k = Some (name, data) ->
  (forall n, (n < 2 * k + 1)%nat -> fails f n = None) ->
  fails f (2 * k + 1) = Some e ->
  result (assets f d) = Some e /\
  disk_after (assets f d) name = Some (substring 0 (written f (2 * k + 1)) data) /\
  closed (assets f d) = rev (firstn k [tags; branches; pegs]).
Proof.
  intros Hk Hf He. unfold_assets.
  destruct k as [| [| [| k]]]; try discriminate Hk;
    injection Hk as <- <-; cbn in He, Hf |- *;
    rewrite !Hf by lia; rewrite He; cbn.
  all: split; [reflexivity |]; split; [| reflexivity].
  all: unfold disk_put; rewrite String.eqb_refl; reflexivity.
Qed.

End AssetProperties.

(** ** Properties of the whole process *)

Section ProcessProperties.

Variable path_Join : string -> string -> string.
Variable config : Config.

Local Open Scope list_scope.

Lemma holding_snoc (i : nat) (tr : trace) (l : nat * event) :
  holding i (tr ++ [l]) = holds_step i (holding i tr) l.
Proof. unfold holding. rewrite fold_left_app. reflexivity. Qed.

Lemma in_span_snoc (i : nat) (tr : trace) (l : nat * event) :
  in_span i (tr ++ [l]) = span_step i (in_span i tr) l.
Proof. unfold in_span. rewrite fold_left_app. reflexivity. Qed.

Lemma holds_step_other (i j : nat) (h : bool) (e : event) :
  j <> i -> holds_step i h (j, e) = h.
Proof.
  intros Hne. unfold holds_step. cbn.
  destruct (Nat.eqb_spec j i); [contradiction | reflexivity].
Qed.

Lemma span_step_other (i j : nat) (b : bool) (e : event) :
  j <> i -> span_step i b (j, e) = b.
Proof.
  intros Hne. unfold span_step. cbn.
  destruct (Nat.eqb_spec j i); [contradiction | reflexivity].
Qed.

Lemma holds_step_quiet (i j : nat) (h : bool) (e : event) :
  e <> EDo MuLock -> e <> EDo MuUnlock -> holds_step i h (j, e) = h.
Proof.
  intros Hl Hu. unfold holds_step. cbn.
  destruct (Nat.eqb j i); [| reflexivity].
  destruct e as [| m | | | | |]; try reflexivity.
  destruct m; congruence.
Qed.

Lemma holds_step_self (i : nat) (h : bool) (e : event) :
  holds_step i h (i, e) =
    match e with
    | EDo MuLock => true
    | EDo MuUnlock => false
    | _ => h
    end.
Proof. unfold holds_step. cbn. rewrite Nat.eqb_refl. reflexivity. Qed.

Lemma span_step_self (i : nat) (b : bool) (e : event) :
  span_step i b (i, e) =
    match e with
    | ECall (Chdir _) None => negb b
    | ECall (Chdir _) (Some _) => false
    | _ => b
    end.
Proof. unfold span_step. cbn. rewrite Nat.eqb_refl. reflexivity. Qed.

(** A new event keeps the trace guarded when it is itself guarded. *)
Lemma ops_guarded_snoc (tr : trace) (i : nat) (e : event) :
  ops_guarded tr ->
  (i <> O -> is_cleanup_op e = true -> holding i tr = true) ->
  ops_guarded (tr ++ [(i, e)]).
Proof.
  intros Hg Hnew tr1 i' e' tr2 Heq Hi Hc.
  destruct tr2 as [| x tr2 _] using rev_ind.
  - apply app_inj_tail in Heq as [-> Hl]. injection Hl as <- <-. auto.
  - rewrite app_comm_cons, app_assoc in Heq.
    apply app_inj_tail in Heq as [-> _]. eapply Hg; eauto.
Qed.

(** Put the command tree of the goal in head normal form. *)
Ltac norm_prog :=
  lazymatch goal with
  | |- at_phase ?ph ?P =>
      let P' := eval hnf in P in change (at_phase ph P')
  end.

Ltac discipline :=
  repeat (norm_prog;
          first
            [ apply ph_return
            | apply ph_lock
            | apply ph_unlock
            | apply ph_call;
              [ reflexivity
              | first [left; reflexivity | right; reflexivity]
              | intros [? |] ]
            | apply ph_enter; [| intros ?]
            | apply ph_leave; intros [? |]
            | apply ph_do; [reflexivity |]
            | apply ph_load; intros ?
            | apply ph_store ]).

(** [migrate] uses the mutex and the working directory in the
    disciplined way. *)
Lemma migrate_disciplined (p : Project) :
  at_phase Outside (migrate path_Join config p).
Proof. discipline. Qed.

Lemma spawn_all_coordinator (projects : list Project) (k : prog) :
  coordinator k -> coordinator (spawn_all path_Join config projects k).
Proof.
  intros Hk. induction projects as [| p rest IH]; [exact Hk |].
  cbn [spawn_all]. unfold Queue_Add.
  apply co_do; [reflexivity |]. apply co_load; intros n. apply co_store.
  apply co_go; [apply migrate_disciplined | exact IH].
Qed.

Lemma main_coordinator : coordinator (main path_Join config).
Proof.
  unfold main. apply co_call; intros _.
  apply co_call; intros [e |].
  { apply co_do; [reflexivity | apply co_exit]. }
  apply co_call; intros [e |].
  { apply co_do; [reflexivity | apply co_exit]. }
  apply spawn_all_coordinator.
  apply co_do; [reflexivity |]. apply co_do; [reflexivity |]. apply co_return.
Qed.

Lemma init_invariant : invariant (init path_Join config) [].
Proof.
  split; cbn.
  - eexists. split; [reflexivity | apply main_coordinator].
  - reflexivity.
  - intros i p H. destruct i; discriminate H.
  - intros i _. split; reflexivity.
  - intros j. reflexivity.
  - intros tr1 i e tr2 H. destruct tr1; discriminate H.
Qed.

(** A step of main that is no mutex operation keeps the invariant;
    [extra] is the task it may have started. *)
Lemma main_step_preserves (s s' : state) (tr : trace) (e : event)
      (m' : prog) (extra : list prog) :
  invariant s tr ->
  threads s' = <[O := m']> (threads s) ++ extra ->
  mu s' = mu s ->
  coordinator m' ->
  Forall (at_phase Outside) extra ->
  e <> EDo MuLock -> e <> EDo MuUnlock ->
  invariant s' (tr ++ [(O, e)]).
Proof.
  intros [Hmain Hfree Htasks Hfresh Hmu Hguard] Hth Hmu' Hm' Hextra Hl Hu.
  destruct Hmain as (m & Hm & _).
  apply lookup_lt_Some in Hm.
  assert (Hh : forall j, holding j (tr ++ [(O, e)]) = holding j tr).
  { intros j. rewrite holding_snoc. apply holds_step_quiet; assumption. }
  assert (Hs : forall j, j <> O -> in_span j (tr ++ [(O, e)]) = in_span j tr).
  { intros j Hj. rewrite in_span_snoc. apply span_step_other. auto. }
  split.
  - exists m'. split; [| exact Hm'].
    rewrite Hth, lookup_app_l by (rewrite length_insert; exact Hm).
    apply list_lookup_insert_eq. exact Hm.
  - rewrite Hh. exact Hfree.
  - intros j p Hp. rewrite Hh, Hs by discriminate. rewrite Hth in Hp.
    destruct (decide (S j < length (threads s))%nat) as [Hlt | Hge].
    + rewrite lookup_app_l in Hp by (rewrite length_insert; exact Hlt).
      rewrite list_lookup_insert_ne in Hp by discriminate.
      apply Htasks. exact Hp.
    + rewrite lookup_app_r in Hp by (rewrite length_insert; lia).
      apply list_elem_of_lookup_2 in Hp.
      rewrite Forall_forall in Hextra.
      destruct (Hfresh (S j)) as [-> ->]; [lia |].
      split; [apply Hextra; exact Hp | discriminate].
  - intros j Hj. rewrite Hth, length_app, length_insert in Hj.
    rewrite Hh, Hs by lia. apply Hfresh. lia.
  - rewrite Hmu'. destruct (mu s).
    + destruct Hmu as (h & Hh1 & Hh2). exists h.
      split; [rewrite Hh; exact Hh1 |].
      intros j Hj. rewrite Hh in Hj. auto.
    + intros j. rewrite Hh. apply Hmu.
  - apply ops_guarded_snoc; [exact Hguard | intros Hne; contradiction].
Qed.

(** A step of task [S i] keeps the invariant when the task moves between
    phases as [at_phase] says and the mutex follows. *)
Lemma task_step_preserves (s s' : state) (tr : trace) (i : nat) (e : event)
      (p p' : prog) :
  invariant s tr ->
  threads s !! S i = Some p ->
  threads s' = <[S i := p']> (threads s) ->
  at_phase (phase_of (holds_step (S i) (holding (S i) tr) (S i, e))
                     (span_step (S i) (in_span (S i) tr) (S i, e))) p' ->
  (span_step (S i) (in_span (S i) tr) (S i, e) = true ->
   holds_step (S i) (holding (S i) tr) (S i, e) = true) ->
  (is_cleanup_op e = true -> holding (S i) tr = true) ->
  (e = EDo MuUnlock -> holding (S i) tr = true) ->
  (e = EDo MuLock -> mu s = false) ->
  mu s' = match e with
          | EDo MuLock => true
          | EDo MuUnlock => false
          | _ => mu s
          end ->
  invariant s' (tr ++ [(S i, e)]).
Proof.
  intros [Hmain Hfree Htasks Hfresh Hmu Hguard] Hp Hth Hph Hsp Hcl Hun Hlk Hmu'.
  pose proof (lookup_lt_Some _ _ _ Hp) as Hlen.
  assert (Hh : forall j, j <> S i ->
                         holding j (tr ++ [(S i, e)]) = holding j tr).
  { intros j Hj. rewrite holding_snoc. apply holds_step_other. auto. }
  assert (Hs : forall j, j <> S i ->
                         in_span j (tr ++ [(S i, e)]) = in_span j tr).
  { intros j Hj. rewrite in_span_snoc. apply span_step_other. auto. }
  split.
  - destruct Hmain as (m & Hm & Hco). exists m. split; [| exact Hco].
    rewrite Hth, list_lookup_insert_ne by discriminate. exact Hm.
  - rewrite Hh by discriminate. exact Hfree.
  - intros j q Hq. rewrite Hth in Hq.
    destruct (decide (j = i)) as [-> | Hne].
    + rewrite list_lookup_insert_eq in Hq by exact Hlen.
      injection Hq as <-. rewrite holding_snoc, in_span_snoc.
      split; assumption.
    + rewrite list_lookup_insert_ne in Hq by congruence.
      rewrite Hh, Hs by congruence. apply Htasks. exact Hq.
  - intros j Hj. rewrite Hth, length_insert in Hj.
    rewrite Hh, Hs by lia. apply Hfresh. exact Hj.
  - rewrite Hmu'.
    assert (Hquiet : e <> EDo MuLock -> e <> EDo MuUnlock ->
                     forall j, holding j (tr ++ [(S i, e)]) = holding j tr).
    { intros Hl Hu j. rewrite holding_snoc. apply holds_step_quiet; assumption. }
    assert (Hkeep : e <> EDo MuLock -> e <> EDo MuUnlock ->
              if mu s
              then exists h, holding h (tr ++ [(S i, e)]) = true /\
                             forall j, holding j (tr ++ [(S i, e)]) = true -> j = h
              else forall j, holding j (tr ++ [(S i, e)]) = false).
    { intros Hl Hu. destruct (mu s).
      - destruct Hmu as (h & Hh1 & Hh2). exists h.
        split; [rewrite Hquiet by assumption; exact Hh1 |].
        intros j Hj. rewrite Hquiet in Hj by assumption. auto.
      - intros j. rewrite Hquiet by assumption. apply Hmu. }
    destruct e as [c r | m | | | | |]; try (apply Hkeep; discriminate).
    destruct m; try (apply Hkeep; discriminate).
    + (* Lock *)
      rewrite Hlk in Hmu by reflexivity.
      exists (S i). split.
      * rewrite holding_snoc, holds_step_self. reflexivity.
      * intros j Hj. destruct (decide (j = S i)) as [-> | Hne]; [reflexivity |].
        rewrite Hh, Hmu in Hj by exact Hne. discriminate Hj.
    + (* Unlock *)
      intros j. destruct (decide (j = S i)) as [-> | Hne].
      * rewrite holding_snoc, holds_step_self. reflexivity.
      * rewrite Hh by exact Hne.
        destruct (mu s); [| apply Hmu].
        destruct Hmu as (h & _ & Hh2).
        destruct (holding j tr) eqn:Hj; [| reflexivity].
        apply Hh2 in Hj. rewrite (Hh2 (S i)) in Hne by (apply Hun; reflexivity).
        congruence.
  - apply ops_guarded_snoc; [exact Hguard | intros _; exact Hcl].
Qed.

Ltac solve_threads :=
  cbn; rewrite ?app_nil_r;
  first [ reflexivity | symmetry; apply list_insert_id; eassumption ].

(** Every step of the process keeps the invariant. *)
Lemma step_preserves (s s' : state) (tr : trace) (i : nat)
      (r : option error) (e : event) :
  invariant s tr ->
  step_fn s i r = Some (e, s') ->
  invariant s' (tr ++ [(i, e)]).
Proof.
  intros Hinv Hstep. unfold step_fn in Hstep.
  destruct (exited s); [discriminate |].
  destruct (threads s !! i) as [p |] eqn:Hp; [| discriminate].
  destruct i as [| i].
  - (* main *)
    destruct (inv_main _ _ Hinv) as (m & Hm & Hco).
    rewrite Hp in Hm. injection Hm as <-.
    assert (Hfin : forall m' extra,
               threads s' = <[O := m']> (threads s) ++ extra ->
               mu s' = mu s -> coordinator m' ->
               Forall (at_phase Outside) extra ->
               e <> EDo MuLock -> e <> EDo MuUnlock ->
               invariant s' (tr ++ [(O, e)])).
    { intros. eapply main_step_preserves; eauto. }
    inversion Hco as [| code | c k Hk | e0 k He0 Hk | x k Hk | x n k Hk | t k Ht Hk];
      subst p.
    + injection Hstep as <- <-.
      apply (Hfin Return []); try solve_threads; auto; discriminate.
    + injection Hstep as <- <-.
      apply (Hfin (Exit code) []); try solve_threads; auto; discriminate.
    + injection Hstep as <- <-.
      apply (Hfin (k r) []); try solve_threads; auto; discriminate.
    + destruct e0; try discriminate He0; unfold wg_add in Hstep;
        repeat match type of Hstep with
          | context [if ?c then _ else _] => destruct c
          end;
        try discriminate Hstep; injection Hstep as <- <-;
        first [ apply (Hfin k []); try solve_threads; auto; discriminate
              | eapply (Hfin _ []); try solve_threads; eauto; discriminate ].
    + injection Hstep as <- <-.
      apply (Hfin (k (read s x)) []); try solve_threads; auto; discriminate.
    + injection Hstep as <- <-.
      apply (Hfin k []); try (destruct x; solve_threads); auto; discriminate.
    + injection Hstep as <- <-.
      apply (Hfin k [t]); try solve_threads; auto; discriminate.
  - (* a task *)
    destruct (inv_tasks _ _ Hinv i p Hp) as [Hph Himp].
    pose proof (inv_mutex _ _ Hinv) as Hmutex.
    assert (Hfin : forall p',
               threads s' = <[S i := p']> (threads s) ->
               at_phase (phase_of (holds_step (S i) (holding (S i) tr) (S i, e))
                                  (span_step (S i) (in_span (S i) tr) (S i, e))) p' ->
               (span_step (S i) (in_span (S i) tr) (S i, e) = true ->
                holds_step (S i) (holding (S i) tr) (S i, e) = true) ->
               (is_cleanup_op e = true -> holding (S i) tr = true) ->
               (e = EDo MuUnlock -> holding (S i) tr = true) ->
               (e = EDo MuLock -> mu s = false) ->
               mu s' = match e with
                       | EDo MuLock => true
                       | EDo MuUnlock => false
                       | _ => mu s
                       end ->
               invariant s' (tr ++ [(S i, e)])).
    { intros. eapply task_step_preserves; eauto. }
    destruct (holding (S i) tr) eqn:Hh, (in_span (S i) tr) eqn:Hb;
      try (specialize (Himp eq_refl); discriminate Himp);
      cbn [phase_of] in Hph.
    all: inversion Hph
      as [| ph c k Hc Hcl Hk | d k Hk1 Hk2 | d k Hk | k Hk | k Hk
          | ph e0 k He0 Hk | ph x k Hk | ph n k Hk];
      subst; try discriminate.
    all: try (destruct e0; try discriminate He0; unfold wg_add in Hstep).
    all: repeat match type of Hstep with
           | context [if ?c then _ else _] => destruct c eqn:?
           end;
         try discriminate Hstep.
    all: try (rewrite (Hmutex (S i)) in Hh; discriminate Hh).
    all: injection Hstep as <- <-.
    all: try (destruct x).
    all: eapply Hfin; [solve_threads | ..];
         rewrite ?holds_step_self, ?span_step_self; cbn;
         try (destruct c; try discriminate Hc; cbn);
         try (destruct r; cbn);
         try destruct Hcl as [Hcl | Hcl];
         try discriminate; try congruence; eauto.
Qed.

(** A schedule keeps the invariant from wherever it starts. *)
Lemma run_preserves (sch : schedule) :
  forall (s s' : state) (tr tr' : trace),
    invariant s tr ->
    run_sched s tr sch = Some (tr', s') ->
    invariant s' tr'.
Proof.
  induction sch as [| [i r] rest IH]; intros s s' tr tr' Hinv Hrun.
  - injection Hrun as <- <-. exact Hinv.
  - cbn [run_sched] in Hrun.
    destruct (step_fn s i r) as [[e s1] |] eqn:Hstep; [| discriminate].
    eapply IH; [| exact Hrun]. eapply step_preserves; eauto.
Qed.

(** Every instant of a run is the end of a run: what holds at the end of
    every schedule holds after each of its prefixes. *)
Lemma run_sched_prefix (sch1 sch2 : schedule) :
  forall (s s' : state) (tr tr' : trace),
    run_sched s tr (sch1 ++ sch2) = Some (tr', s') ->
    exists tr1 s1,
      run_sched s tr sch1 = Some (tr1, s1) /\
      run_sched s1 tr1 sch2 = Some (tr', s').
Proof.
  induction sch1 as [| [i r] rest IH]; intros s s' tr tr' Hrun.
  - exists tr, s. split; [reflexivity | exact Hrun].
  - cbn [app run_sched] in *.
    destruct (step_fn s i r) as [[e s1] |]; [| discriminate].
    apply IH. exact Hrun.
Qed.

(** C1. After every schedule of the process, that is, at every instant of
    every run: at most one goroutine holds the mutex; a task that is
    inside the cleanup span (it has changed into a project directory and
    has not yet tried to change back) holds the mutex, so at most one
    task is inside the cleanup span; and every directory change and every
    cleanup command a task has done so far (tags, branches, pegs, branch
    deletion) was done while that task held the mutex. *)
Theorem mutual_exclusion (sch : schedule) (tr : trace) (s : state) :
  run_sched (init path_Join config) [] sch = Some (tr, s) ->
  (forall i j, holding i tr = true -> holding j tr = true -> i = j) /\
  (forall i, i <> O -> in_span i tr = true -> holding i tr = true) /\
  (forall i j, i <> O -> j <> O ->
               in_span i tr = true -> in_span j tr = true -> i = j) /\
  ops_guarded tr.
Proof.
  intros Hrun.
  pose proof (run_preserves sch _ _ _ _ init_invariant Hrun)
    as [Hmain Hfree Htasks Hfresh Hmu Hguard].
  assert (Hone : forall i j,
             holding i tr = true -> holding j tr = true -> i = j).
  { intros i j Hi Hj. destruct (mu s).
    - destruct Hmu as (h & _ & Hh). rewrite (Hh i Hi), (Hh j Hj). reflexivity.
    - rewrite Hmu in Hi. discriminate Hi. }
  assert (Hin : forall i, i <> O -> in_span i tr = true -> holding i tr = true).
  { intros [| i] Hi Hsp; [contradiction |].
    destruct (threads s !! S i) as [p |] eqn:Hp.
    - apply (Htasks i p Hp). exact Hsp.
    - apply lookup_ge_None in Hp. destruct (Hfresh (S i) Hp) as [_ Hno].
      rewrite Hno in Hsp. discriminate Hsp. }
  repeat split; auto.
Qed.

End ProcessProperties.

(** ** The total counter *)

Section TotalCounter.

Variable path_Join : string -> string -> string.
Variable config : Config.

Local Open Scope list_scope.

(** [queue.Total] stays below the wrap-around of [int]. *)
Hypothesis few_projects : Z.of_nat (length (Projects config)) < 2 ^ 63.

Lemma incr_small (n : Z) : 0 <= n -> n + 1 < 2 ^ 63 -> incr n = n + 1.
Proof.
  intros H0 H1. unfold incr, int_wrap.
  change (2 ^ 64) with (2 * 2 ^ 63).
  rewrite Z.mod_small by lia. lia.
Qed.

Lemma wait_returned_snoc (tr : trace) (i : nat) (e : event) :
  wait_returned (tr ++ [(i, e)]) =
    wait_returned tr ||
      match i, e with
      | O, EDo WgWait => true
      | _, _ => false
      end.
Proof.
  unfold wait_returned. rewrite existsb_app. cbn.
  rewrite orb_false_r. reflexivity.
Qed.

Lemma wait_returned_task (tr : trace) (i : nat) (e : event) :
  wait_returned (tr ++ [(S i, e)]) = wait_returned tr.
Proof. rewrite wait_returned_snoc. apply orb_false_r. Qed.

Lemma main_counts_from_zero :
  main_progress path_Join config (main path_Join config) 0 false.
Proof.
  unfold main. apply mp_call; intros _.
  apply mp_call; intros [e |]; [apply mp_abort |].
  apply mp_call; intros [e |]; [apply mp_abort |].
  apply (mp_loop path_Join config [] (Projects config)). reflexivity.
Qed.

Lemma init_counting : counting path_Join config (init path_Join config) [].
Proof.
  exists (main path_Join config). split; [reflexivity |].
  apply main_counts_from_zero.
Qed.

(** A task never writes [queue.Total] and never touches main. *)
Lemma task_step_total (s s' : state) (i : nat) (r : option error) (e : event)
      (ph : phase) (p : prog) :
  threads s !! S i = Some p ->
  at_phase ph p ->
  step_fn s (S i) r = Some (e, s') ->
  q_Total s' = q_Total s /\ threads s' !! O = threads s !! O.
Proof.
  intros Hp Hph Hstep. unfold step_fn in Hstep.
  destruct (exited s); [discriminate |]. rewrite Hp in Hstep.
  inversion Hph; subst; try discriminate Hstep.
  all: try match goal with
         | e0 : effect |- _ => destruct e0; unfold wg_add in Hstep
         end.
  all: repeat match type of Hstep with
         | context [if ?c then _ else _] => destruct c
         end;
       try discriminate Hstep.
  all: injection Hstep as <- <-; cbn.
  all: try match goal with
         | x : var |- _ => destruct x; cbn
         end.
  all: rewrite ?list_lookup_insert_ne by discriminate.
  all: split; reflexivity.
Qed.

(** Every step keeps main where [main_progress] says. *)
Lemma step_counting (s s' : state) (tr : trace) (i : nat)
      (r : option error) (e : event) :
  invariant s tr ->
  counting path_Join config s tr ->
  step_fn s i r = Some (e, s') ->
  counting path_Join config s' (tr ++ [(i, e)]).
Proof.
  intros Hinv (m & Hm & Hmp) Hstep. unfold counting.
  destruct i as [| i].
  - (* main *)
    pose proof (lookup_lt_Some _ _ _ Hm) as Hlen.
    rewrite wait_returned_snoc.
    unfold step_fn in Hstep.
    destruct (exited s); [discriminate |]. rewrite Hm in Hstep.
    remember (q_Total s) as t eqn:Ht.
    remember (wait_returned tr) as w eqn:Hw.
    destruct Hmp as [c k Hk | f a code | code
                     | done rest Hpr | done p rest Hpr
                     | done p rest Hpr | done p rest Hpr
                     | | ].
    + injection Hstep as <- <-. exists (k r). cbn.
      rewrite <- ?Hw. split; [apply list_lookup_insert_eq; exact Hlen |].
      rewrite <- ?Ht. apply Hk.
    + injection Hstep as <- <-. exists (Exit code). cbn.
      rewrite <- ?Hw, <- ?Ht.
      split; [apply list_lookup_insert_eq; exact Hlen | apply mp_exit].
    + injection Hstep as <- <-. exists (Exit code). cbn.
      rewrite <- ?Hw, <- ?Ht. split; [exact Hm | apply mp_exit].
    + destruct rest as [| p rest]; cbn [spawn_all] in Hstep.
      * unfold after_loop in Hstep.
        destruct (wg s =? 0); [| discriminate Hstep].
        injection Hstep as <- <-. eexists. cbn.
        split; [apply list_lookup_insert_eq; exact Hlen |].
        rewrite ?orb_true_r, <- ?Ht. rewrite app_nil_r in Hpr.
        rewrite <- Hpr. apply mp_waited.
      * unfold Queue_Add, wg_add in Hstep.
        destruct (wg s + 1 <? 0); injection Hstep as <- <-; cbn;
          rewrite <- ?Hw, <- ?Ht.
        -- eexists. split; [exact Hm |].
           apply (mp_loop path_Join config done (p :: rest) Hpr).
        -- eexists. split; [apply list_lookup_insert_eq; exact Hlen |].
           apply (mp_load path_Join config done p rest Hpr).
    + injection Hstep as <- <-. eexists. cbn. rewrite <- ?Hw.
      split; [apply list_lookup_insert_eq; exact Hlen |].
      rewrite <- ?Ht. apply (mp_store path_Join config done p rest Hpr).
    + injection Hstep as <- <-. eexists. cbn. rewrite <- ?Hw.
      split; [apply list_lookup_insert_eq; exact Hlen |].
      apply (mp_go path_Join config done p rest Hpr).
    + injection Hstep as <- <-. eexists. cbn. rewrite <- ?Hw.
      split.
      { rewrite lookup_app_l by (rewrite length_insert; exact Hlen).
        apply list_lookup_insert_eq. exact Hlen. }
      rewrite <- ?Ht.
      assert (Hn : Z.of_nat (length (done ++ [p])) = incr (Z.of_nat (length done))).
      { rewrite incr_small.
        - rewrite length_app. cbn. lia.
        - lia.
        - rewrite Hpr, length_app in few_projects. cbn in few_projects. lia. }
      rewrite <- Hn. apply mp_loop. rewrite <- app_assoc. exact Hpr.
    + injection Hstep as <- <-. eexists. cbn.
      split; [apply list_lookup_insert_eq; exact Hlen |].
      rewrite <- ?Hw, <- ?Ht. apply mp_return.
    + injection Hstep as <- <-. eexists. cbn.
      split; [exact Hm |]. rewrite <- ?Hw, <- ?Ht. apply mp_return.
  - (* a task *)
    assert (exists p, threads s !! S i = Some p) as [p Hp].
    { unfold step_fn in Hstep. destruct (exited s); [discriminate |].
      destruct (threads s !! S i); [eauto | discriminate]. }
    destruct (inv_tasks _ _ Hinv i p Hp) as [Hph _].
    destruct (task_step_total _ _ _ _ _ _ _ Hp Hph Hstep) as [Ht Hth].
    exists m. rewrite Hth, Ht, wait_returned_task. split; assumption.
Qed.

Lemma run_counting (sch : schedule) :
  forall (s s' : state) (tr tr' : trace),
    invariant s tr ->
    counting path_Join config s tr ->
    run_sched s tr sch = Some (tr', s') ->
    counting path_Join config s' tr'.
Proof.
  induction sch as [| [i r] rest IH]; intros s s' tr tr' Hinv Hc Hrun.
  - injection Hrun as <- <-. exact Hc.
  - cbn [run_sched] in Hrun.
    destruct (step_fn s i r) as [[e s1] |] eqn:Hstep; [| discriminate].
    eapply IH; [| | exact Hrun].
    + eapply step_preserves; eauto.
    + eapply step_counting; eauto.
Qed.

(** X1. Once [wg.Wait()] has returned, [queue.Total] is the number of
    configured projects, whatever the schedule. *)
Lemma total_counts_projects (sch : schedule) (tr : trace) (s : state) :
  run_sched (init path_Join config) [] sch = Some (tr, s) ->
  wait_returned tr = true ->
  q_Total s = Z.of_nat (length (Projects config)).
Proof.
  intros Hrun Hw.
  destruct (run_counting sch _ _ _ _ (init_invariant path_Join config)
              init_counting Hrun) as (m & _ & Hmp).
  rewrite Hw in Hmp. inversion Hmp; reflexivity.
Qed.

End TotalCounter.

(** ** The barrier and progress *)

Section BarrierProperties.

Variable path_Join : string -> string -> string.
Variable config : Config.

Local Open Scope list_scope.

Lemma signalled_snoc (i j : nat) (tr : trace) (e : event) :
  signalled i (tr ++ [(j, e)]) =
    signalled i tr ||
      match e with
      | EDo WgDone => Nat.eqb j i
      | _ => false
      end.
Proof.
  unfold signalled. rewrite existsb_app. cbn. rewrite orb_false_r.
  reflexivity.
Qed.

Lemma signalled_quiet (i j : nat) (tr : trace) (e : event) :
  e <> EDo WgDone -> signalled i (tr ++ [(j, e)]) = signalled i tr.
Proof.
  intros He. rewrite signalled_snoc.
  destruct e as [| m | | | | |]; try apply orb_false_r.
  destruct m; try apply orb_false_r. congruence.
Qed.

Lemma signalled_other (i j : nat) (tr : trace) (e : event) :
  j <> i -> signalled i (tr ++ [(j, e)]) = signalled i tr.
Proof.
  intros Hne. rewrite signalled_snoc.
  destruct e as [| m | | | | |]; try apply orb_false_r.
  destruct m; try apply orb_false_r.
  destruct (Nat.eqb_spec j i); [contradiction | apply orb_false_r].
Qed.

(** Flipping one element of a duplicate-free list out of a filter makes
    the result one shorter. *)
Lemma filter_flip_one (f g : nat -> bool) (x : nat) (l : list nat) :
  NoDup l -> x ∈ l ->
  f x = true -> g x = false ->
  (forall y, y <> x -> g y = f y) ->
  length (List.filter f l) = S (length (List.filter g l)).
Proof.
  intros Hnd Hx Hfx Hgx Hrest.
  induction l as [| y l IH]; [inversion Hx |].
  apply NoDup_cons in Hnd as [Hy Hnd]. cbn [List.filter].
  destruct (decide (y = x)) as [-> | Hne].
  - rewrite Hfx, Hgx. cbn [length]. f_equal.
    f_equal. apply List.filter_ext_in. intros z Hz.
    symmetry. apply Hrest. intros ->.
    apply Hy. apply list_elem_of_In. exact Hz.
  - rewrite (Hrest y Hne).
    apply elem_of_cons in Hx as [-> | Hx]; [contradiction |].
    destruct (f y); cbn [length]; rewrite (IH Hnd Hx); reflexivity.
Qed.

Lemma unsignalled_same (s s' : state) (tr tr' : trace) :
  length (threads s') = length (threads s) ->
  (forall i, signalled i tr' = signalled i tr) ->
  unsignalled s' tr' = unsignalled s tr.
Proof.
  intros Hlen Hsig. unfold unsignalled. rewrite Hlen.
  apply List.filter_ext. intros i. rewrite Hsig. reflexivity.
Qed.

(** Put the command tree of the goal in head normal form. *)
Ltac norm_signals :=
  lazymatch goal with
  | |- signals ?b ?P =>
      let P' := eval hnf in P in change (signals b P')
  end.

(** [migrate] calls [queue.wg.Done()] exactly once on every path. *)
Lemma migrate_signals (p : Project) :
  signals false (migrate path_Join config p).
Proof.
  repeat (norm_signals;
          first
            [ apply sg_return
            | apply sg_done
            | apply sg_do; [reflexivity |]
            | apply sg_call; intros [? |]
            | apply sg_load; intros ?
            | apply sg_store ]).
Qed.

Lemma main_at_start : main_at path_Join config (main path_Join config) 0 0 false.
Proof.
  unfold main. apply ma_call; intros _.
  apply ma_call; intros [e |]; [apply ma_abort |].
  apply ma_call; intros [e |]; [apply ma_abort |].
  apply (ma_loop path_Join config [] (Projects config)). reflexivity.
Qed.

Lemma init_barrier : barrier path_Join config (init path_Join config) [].
Proof.
  split; cbn.
  - exists (main path_Join config), O, 0. repeat split. apply main_at_start.
  - intros i p H. destruct i; discriminate H.
  - reflexivity.
  - discriminate.
Qed.

Lemma wg_done_or_not (e : event) : e = EDo WgDone \/ e <> EDo WgDone.
Proof.
  destruct e as [| m | | | | |]; try (right; discriminate).
  destruct m; try (right; discriminate). left. reflexivity.
Qed.

Lemma main_at_reserved (m : prog) (n : nat) (reserved : Z) (w : bool) :
  main_at path_Join config m n reserved w -> 0 <= reserved.
Proof. intros H. destruct H; lia. Qed.

(** Tasks that have just been started have not signalled. *)
Lemma unsignalled_extended (s s' : state) (tr tr' : trace) (extra : list prog) :
  (1 <= length (threads s))%nat ->
  length (threads s') = (length (threads s) + length extra)%nat ->
  (forall i, signalled i tr' = signalled i tr) ->
  (forall i, (length (threads s) <= i)%nat -> signalled i tr = false) ->
  length (unsignalled s' tr') = (length (unsignalled s tr) + length extra)%nat.
Proof.
  intros Hpos Hlen Hsig Hfresh. unfold unsignalled. rewrite Hlen.
  replace (length (threads s) + length extra - 1)%nat
    with ((length (threads s) - 1) + length extra)%nat by lia.
  rewrite seq_app, List.filter_app, length_app.
  f_equal.
  - f_equal. apply List.filter_ext. intros i. rewrite Hsig. reflexivity.
  - replace (1 + (length (threads s) - 1))%nat with (length (threads s)) by lia.
    rewrite (List.filter_ext_in _ (fun _ => true)).
    + clear. generalize (length (threads s)).
      induction (length extra) as [| k IH]; intros a; [reflexivity |].
      cbn. rewrite IH. reflexivity.
    + intros i Hi. apply in_seq in Hi. rewrite Hsig, Hfresh by lia. reflexivity.
Qed.

(** A step of main keeps the barrier invariant, given where main gets to. *)
Lemma barrier_main_step (s s' : state) (tr : trace) (e : event)
      (m' : prog) (n' : nat) (reserved' : Z) (extra : list prog) :
  barrier path_Join config s tr ->
  e <> EDo WgDone ->
  threads s' = <[O := m']> (threads s) ++ extra ->
  main_at path_Join config m' n' reserved' (wait_returned (tr ++ [(O, e)])) ->
  (length (threads s) + length extra)%nat = S n' ->
  wg s' = Z.of_nat (length (unsignalled s tr) + length extra) + reserved' ->
  Forall (signals false) extra ->
  (wait_returned (tr ++ [(O, e)]) = true -> wg s' = 0) ->
  barrier path_Join config s' (tr ++ [(O, e)]).
Proof.
  intros [Hmain Htasks Hfresh Hwaited] He Hth Hat Hlen Hwg Hextra Hw.
  destruct Hmain as (m & n & rv & Hm & _ & _ & _).
  apply lookup_lt_Some in Hm.
  assert (Hsig : forall i, signalled i (tr ++ [(O, e)]) = signalled i tr).
  { intros i. apply signalled_quiet. exact He. }
  assert (Hlen' : length (threads s') = (length (threads s) + length extra)%nat).
  { rewrite Hth, length_app, length_insert. reflexivity. }
  split.
  - exists m', n', reserved'. split; [| split; [exact Hat | split]].
    + rewrite Hth, lookup_app_l by (rewrite length_insert; exact Hm).
      apply list_lookup_insert_eq. exact Hm.
    + rewrite Hlen'. exact Hlen.
    + rewrite Hwg. f_equal. f_equal. symmetry.
      apply unsignalled_extended; auto; lia.
  - intros i p Hp. rewrite Hsig. rewrite Hth in Hp.
    destruct (decide (S i < length (threads s))%nat) as [Hlt | Hge].
    + rewrite lookup_app_l in Hp by (rewrite length_insert; exact Hlt).
      rewrite list_lookup_insert_ne in Hp by discriminate.
      apply Htasks. exact Hp.
    + rewrite lookup_app_r in Hp by (rewrite length_insert; lia).
      apply list_elem_of_lookup_2 in Hp.
      rewrite Forall_forall in Hextra.
      rewrite Hfresh by lia. apply Hextra. exact Hp.
  - intros i Hi. rewrite Hsig. apply Hfresh. lia.
  - exact Hw.
Qed.

(** A step of task [S i] keeps the barrier invariant. *)
Lemma barrier_task_step (s s' : state) (tr : trace) (i : nat) (e : event)
      (p p' : prog) :
  barrier path_Join config s tr ->
  threads s !! S i = Some p ->
  threads s' = <[S i := p']> (threads s) ->
  signals (signalled (S i) (tr ++ [(S i, e)])) p' ->
  (e = EDo WgDone -> signalled (S i) tr = false /\ wg s' = wg s - 1) ->
  (e <> EDo WgDone -> wg s' = wg s) ->
  barrier path_Join config s' (tr ++ [(S i, e)]).
Proof.
  intros [Hmain Htasks Hfresh Hwaited] Hp Hth Hsg Hdone Hquiet.
  destruct Hmain as (m & n & rv & Hm & Hat & Hlen & Hwg).
  pose proof (lookup_lt_Some _ _ _ Hp) as Hlt.
  pose proof (main_at_reserved _ _ _ _ Hat) as Hrv.
  assert (Hlen' : length (threads s') = length (threads s)).
  { rewrite Hth, length_insert. reflexivity. }
  assert (Hother : forall j, j <> S i ->
                             signalled j (tr ++ [(S i, e)]) = signalled j tr).
  { intros j Hj. apply signalled_other. auto. }
  assert (Hcount : wg s' = Z.of_nat (length (unsignalled s' (tr ++ [(S i, e)]))) + rv).
  { destruct (wg_done_or_not e) as [-> | Hne].
    - destruct (Hdone eq_refl) as [Hno ->]. rewrite Hwg.
      unfold unsignalled. rewrite Hlen'.
      rewrite (filter_flip_one
                 (fun j => negb (signalled j tr))
                 (fun j => negb (signalled j (tr ++ [(S i, EDo WgDone)])))
                 (S i)).
      + lia.
      + apply NoDup_seq.
      + apply list_elem_of_In, in_seq. lia.
      + rewrite Hno. reflexivity.
      + rewrite signalled_snoc, Nat.eqb_refl, orb_true_r. reflexivity.
      + intros y Hy. rewrite Hother by exact Hy. reflexivity.
    - rewrite (Hquiet Hne), Hwg. do 2 f_equal.
      f_equal. symmetry. apply unsignalled_same; [exact Hlen' |].
      intros j. apply signalled_quiet. exact Hne. }
  split.
  - exists m, n, rv. split; [| split; [| split]].
    + rewrite Hth, list_lookup_insert_ne by discriminate. exact Hm.
    + rewrite wait_returned_task. exact Hat.
    + rewrite Hlen'. exact Hlen.
    + exact Hcount.
  - intros j q Hq. rewrite Hth in Hq.
    destruct (decide (j = i)) as [-> | Hne].
    + rewrite list_lookup_insert_eq in Hq by exact Hlt.
      injection Hq as <-. exact Hsg.
    + rewrite list_lookup_insert_ne in Hq by congruence.
      rewrite Hother by congruence. apply Htasks. exact Hq.
  - intros j Hj. rewrite Hlen' in Hj. rewrite Hother by lia.
    apply Hfresh. exact Hj.
  - rewrite wait_returned_task. intros Hw.
    destruct (wg_done_or_not e) as [-> | Hne].
    + exfalso. destruct (Hdone eq_refl) as [Hno _].
      specialize (Hwaited Hw).
      assert (Hin : In (S i) (unsignalled s tr)).
      { unfold unsignalled. apply List.filter_In. split.
        - apply in_seq. lia.
        - rewrite Hno. reflexivity. }
      destruct (unsignalled s tr); [contradiction |]. cbn in Hwg. lia.
    + rewrite (Hquiet Hne). auto.
Qed.

Ltac solve_threads :=
  cbn; rewrite ?app_nil_r;
  first [ reflexivity | symmetry; apply list_insert_id; eassumption ].

(** Every step of the process keeps the barrier invariant. *)
Lemma step_barrier (s s' : state) (tr : trace) (i : nat)
      (r : option error) (e : event) :
  barrier path_Join config s tr ->
  step_fn s i r = Some (e, s') ->
  barrier path_Join config s' (tr ++ [(i, e)]).
Proof.
  intros Hbar Hstep. unfold step_fn in Hstep.
  destruct (exited s); [discriminate |].
  destruct i as [| i].
  - (* main *)
    destruct (bar_main _ _ _ _ Hbar) as (m & n & rv & Hm & Hat & Hlen & Hwg).
    pose proof (bar_waited _ _ _ _ Hbar) as Hwaited.
    rewrite Hm in Hstep.
    assert (Hfin : forall m' n' rv' extra,
               e <> EDo WgDone ->
               threads s' = <[O := m']> (threads s) ++ extra ->
               main_at path_Join config m' n' rv' (wait_returned (tr ++ [(O, e)])) ->
               (length (threads s) + length extra)%nat = S n' ->
               wg s' = Z.of_nat (length (unsignalled s tr) + length extra) + rv' ->
               Forall (signals false) extra ->
               (wait_returned (tr ++ [(O, e)]) = true -> wg s' = 0) ->
               barrier path_Join config s' (tr ++ [(O, e)])).
    { intros. eapply barrier_main_step; eauto. }
    rewrite wait_returned_snoc in Hfin.
    remember (wait_returned tr) as w eqn:Hw.
    destruct Hat as [c k Hk | f a code | code
                     | done rest Hpr | done p rest Hpr
                     | done p rest v Hpr | done p rest Hpr
                     | | ].
    + injection Hstep as <- <-.
      apply (Hfin (k r) O 0 []); try solve_threads; cbn;
        try discriminate; auto; lia.
    + injection Hstep as <- <-.
      apply (Hfin (Exit code) O 0 []); try solve_threads; cbn;
        try discriminate; auto; try lia. apply ma_exit.
    + injection Hstep as <- <-.
      apply (Hfin (Exit code) O 0 []); try solve_threads; cbn;
        try discriminate; auto; try lia. apply ma_exit.
    + destruct rest as [| p rest]; cbn [spawn_all] in Hstep.
      * unfold after_loop in Hstep.
        destruct (wg s =? 0) eqn:Hz; [| discriminate Hstep].
        apply Z.eqb_eq in Hz. injection Hstep as <- <-.
        rewrite app_nil_r in Hpr.
        apply (Hfin (Do (Println "Migration finished...") Return)
                    (length (Projects config)) 0 []);
          try solve_threads; cbn; try discriminate; auto; try lia.
        -- apply ma_waited.
        -- rewrite Hpr. lia.
      * unfold Queue_Add, wg_add in Hstep.
        destruct (wg s + 1 <? 0); injection Hstep as <- <-.
        -- apply (Hfin (spawn_all path_Join config (p :: rest) after_loop)
                       (length done) 0 []);
             try solve_threads; cbn; try discriminate; auto; try lia.
           apply (ma_loop path_Join config done (p :: rest) Hpr).
        -- eapply (Hfin _ (length done) 1 []);
             try solve_threads; cbn; try discriminate; auto; try lia.
           apply (ma_load path_Join config done p rest Hpr).
    + injection Hstep as <- <-.
      eapply (Hfin _ (length done) 1 []);
        try solve_threads; cbn; try discriminate; auto; try lia.
      apply (ma_store path_Join config done p rest _ Hpr).
    + injection Hstep as <- <-.
      eapply (Hfin _ (length done) 1 []);
        try solve_threads; cbn; try discriminate; auto; try lia.
      apply (ma_go path_Join config done p rest Hpr).
    + injection Hstep as <- <-.
      eapply (Hfin _ (length (done ++ [p])) 0 [migrate path_Join config p]);
        try solve_threads; cbn; try discriminate; auto.
      * apply ma_loop. rewrite <- app_assoc. exact Hpr.
      * rewrite length_app. cbn. lia.
      * lia.
      * constructor; [apply migrate_signals | constructor].
    + injection Hstep as <- <-.
      apply (Hfin Return (length (Projects config)) 0 []);
        try solve_threads; cbn; try discriminate; auto; try lia.
      apply ma_return.
    + injection Hstep as <- <-.
      apply (Hfin Return (length (Projects config)) 0 []);
        try solve_threads; cbn; try discriminate; auto; try lia.
      apply ma_return.
  - (* a task *)
    destruct (threads s !! S i) as [p |] eqn:Hp; [| discriminate].
    pose proof (bar_tasks _ _ _ _ Hbar i p Hp) as Hsg.
    pose proof (lookup_lt_Some _ _ _ Hp) as Hlt.
    assert (Hfin : forall p',
               threads s' = <[S i := p']> (threads s) ->
               signals (signalled (S i) (tr ++ [(S i, e)])) p' ->
               (e = EDo WgDone -> signalled (S i) tr = false /\ wg s' = wg s - 1) ->
               (e <> EDo WgDone -> wg s' = wg s) ->
               barrier path_Join config s' (tr ++ [(S i, e)])).
    { intros. eapply barrier_task_step; eauto. }
    assert (Hpos : signalled (S i) tr = false -> 1 <= wg s).
    { intros Hno.
      destruct (bar_main _ _ _ _ Hbar) as (m & n & rv & _ & Hat & _ & Hwg).
      pose proof (main_at_reserved _ _ _ _ Hat) as Hrv.
      assert (Hin : In (S i) (unsignalled s tr)).
      { unfold unsignalled. apply List.filter_In. split.
        - apply in_seq. lia.
        - rewrite Hno. reflexivity. }
      destruct (unsignalled s tr); [contradiction |]. cbn [length] in Hwg. lia. }
    remember (signalled (S i) tr) as b eqn:Hb.
    destruct Hsg as [| k Hk | b e0 k He0 Hk | b c k Hk | b x k Hk | b x v k Hk].
    + discriminate Hstep.
    + unfold wg_add in Hstep.
      destruct (wg s + -1 <? 0) eqn:Hneg.
      { apply Z.ltb_lt in Hneg. specialize (Hpos eq_refl). lia. }
      injection Hstep as <- <-. apply (Hfin k).
      * solve_threads.
      * rewrite signalled_snoc, Nat.eqb_refl, orb_true_r. exact Hk.
      * intros _. split; [congruence | cbn; lia].
      * congruence.
    + assert (Hsame : forall e1, e1 <> EDo WgDone ->
                                 signalled (S i) (tr ++ [(S i, e1)]) = b).
      { intros e1 He1. rewrite signalled_quiet by exact He1. congruence. }
      destruct e0; try discriminate He0;
        repeat match type of Hstep with
          | context [if ?c then _ else _] => destruct c
          end;
        try discriminate Hstep; injection Hstep as <- <-;
        first [ apply (Hfin k); [solve_threads | rewrite Hsame by discriminate; exact Hk
                                | discriminate | reflexivity]
              | eapply Hfin; [solve_threads
                             | rewrite Hsame by discriminate;
                               apply sg_do; [reflexivity | exact Hk]
                             | discriminate | reflexivity] ].
    + injection Hstep as <- <-. apply (Hfin (k r)).
      * solve_threads.
      * rewrite signalled_quiet by discriminate. rewrite <- Hb. apply Hk.
      * discriminate.
      * reflexivity.
    + injection Hstep as <- <-. apply (Hfin (k (read s x))).
      * solve_threads.
      * rewrite signalled_quiet by discriminate. rewrite <- Hb. apply Hk.
      * discriminate.
      * reflexivity.
    + injection Hstep as <- <-. apply (Hfin k).
      * destruct x; solve_threads.
      * rewrite signalled_quiet by discriminate. rewrite <- Hb. exact Hk.
      * discriminate.
      * destruct x; reflexivity.
Qed.

Lemma run_barrier (sch : schedule) :
  forall (s s' : state) (tr tr' : trace),
    barrier path_Join config s tr ->
    run_sched s tr sch = Some (tr', s') ->
    barrier path_Join config s' tr'.
Proof.
  induction sch as [| [i r] rest IH]; intros s s' tr tr' Hbar Hrun.
  - injection Hrun as <- <-. exact Hbar.
  - cbn [run_sched] in Hrun.
    destruct (step_fn s i r) as [[e s1] |] eqn:Hstep; [| discriminate].
    eapply IH; [| exact Hrun]. eapply step_barrier; eauto.
Qed.

(** X2. [wg.Wait()] is a barrier: once it has returned in main, every
    configured project has had its task started, and every one of these
    tasks has called [queue.wg.Done()]. *)
Theorem wait_returns_after_every_task (sch : schedule) (tr : trace) (s : state) :
  run_sched (init path_Join config) [] sch = Some (tr, s) ->
  wait_returned tr = true ->
  length (threads s) = S (length (Projects config)) /\
  forall i, (1 <= i <= length (Projects config))%nat -> signalled i tr = true.
Proof.
  intros Hrun Hw.
  pose proof (run_barrier sch _ _ _ _ init_barrier Hrun)
    as [Hmain Htasks Hfresh Hwaited].
  destruct Hmain as (m & n & rv & _ & Hat & Hlen & Hwg).
  rewrite Hw in Hat. specialize (Hwaited Hw).
  assert (n = length (Projects config) /\ rv = 0) as [-> ->].
  { inversion Hat; split; reflexivity. }
  split; [exact Hlen |].
  intros i Hi.
  destruct (signalled i tr) eqn:Hsig; [reflexivity | exfalso].
  assert (Hin : In i (unsignalled s tr)).
  { unfold unsignalled. apply List.filter_In. split.
    - apply in_seq. lia.
    - rewrite Hsig. reflexivity. }
  destruct (unsignalled s tr); [contradiction |]. cbn [length] in Hwg. lia.
Qed.

(** A task that has something left to do can move, unless it stands
    before [mu.Lock()] while the mutex is taken. *)
Lemma task_moves_unless_locked_out (s : state) (i : nat) (b : bool) (p : prog) :
  exited s = None ->
  threads s !! S i = Some p ->
  signals b p ->
  p <> Return ->
  (exists k, p = Do MuLock k /\ mu s = true) \/
  (exists r e s', step_fn s (S i) r = Some (e, s')).
Proof.
  intros Hex Hp Hsg Hret. unfold step_fn. rewrite Hex, Hp.
  destruct Hsg as [| k Hk | b e0 k He0 Hk | b c k Hk | b x k Hk | b x v k Hk].
  - contradiction.
  - right. exists None. unfold wg_add. destruct (wg s + -1 <? 0); eauto.
  - destruct e0; try discriminate He0; try (right; exists None; eauto; fail).
    + destruct (mu s); [left; eauto | right; exists None; eauto].
    + right. exists None. destruct (mu s); eauto.
  - right. exists None. eauto.
  - right. exists None. eauto.
  - right. exists None. eauto.
Qed.

(** X3. The process cannot deadlock: as long as it has not ended, some
    goroutine can take a step (every external command is taken to
    return). Main can only be held up by [wg.Wait()], and then a task has
    not signalled yet; a task can only be held up by [mu.Lock()], and then
    the task that holds the mutex can move. *)
Theorem no_deadlock (sch : schedule) (tr : trace) (s : state) :
  run_sched (init path_Join config) [] sch = Some (tr, s) ->
  exited s = None ->
  exists i r e s', step_fn s i r = Some (e, s').
Proof.
  intros Hrun Hex.
  pose proof (run_preserves sch _ _ _ _
                (init_invariant path_Join config) Hrun) as Hinv.
  pose proof (run_barrier sch _ _ _ _ init_barrier Hrun) as Hbar.
  destruct (bar_main _ _ _ _ Hbar) as (m & n & rv & Hm & Hat & Hlen & Hwg).
  assert (Hmain : (exists r e s', step_fn s O r = Some (e, s')) \/
                  (m = after_loop /\ rv = 0 /\ wg s <> 0)).
  { unfold step_fn. rewrite Hex, Hm.
    remember (wait_returned tr) as w eqn:Hw.
    destruct Hat as [c k Hk | f a code | code
                     | done rest Hpr | done p rest Hpr
                     | done p rest v Hpr | done p rest Hpr
                     | | ];
      try (left; exists None; eauto; fail).
    destruct rest as [| p rest]; cbn [spawn_all].
    - unfold after_loop. destruct (wg s =? 0) eqn:Hz.
      + left. exists None. eauto.
      + right. apply Z.eqb_neq in Hz. auto.
    - left. exists None. unfold Queue_Add, wg_add.
      destruct (wg s + 1 <? 0); eauto. }
  destruct Hmain as [(r & e & s' & Hstep) | (-> & -> & Hnz)]; [eauto |].
  (* main waits: some task has not signalled *)
  assert (exists j, In j (unsignalled s tr)) as [j Hj].
  { destruct (unsignalled s tr) as [| j l]; [cbn in Hwg; lia |].
    exists j. left. reflexivity. }
  unfold unsignalled in Hj. apply List.filter_In in Hj as [Hrange Hno].
  apply in_seq in Hrange. apply negb_true_iff in Hno.
  destruct j as [| j]; [lia |].
  destruct (lookup_lt_is_Some_2 (threads s) (S j)) as [p Hp]; [lia |].
  pose proof (bar_tasks _ _ _ _ Hbar j p Hp) as Hsg. rewrite Hno in Hsg.
  destruct (task_moves_unless_locked_out s j false p Hex Hp Hsg)
    as [(k & -> & Hmu) | (r & e & s' & Hstep)]; [| | eauto].
  { intros ->. inversion Hsg. }
  (* the task is locked out: the holder of the mutex can move *)
  pose proof (inv_mutex _ _ Hinv) as Hmutex. rewrite Hmu in Hmutex.
  destruct Hmutex as (h & Hh & _).
  destruct h as [| h].
  { rewrite (inv_main_free _ _ Hinv) in Hh. discriminate Hh. }
  destruct (threads s !! S h) as [q |] eqn:Hq.
  2:{ apply lookup_ge_None in Hq.
      destruct (inv_fresh _ _ Hinv (S h) Hq) as [Hf _].
      rewrite Hf in Hh. discriminate Hh. }
  destruct (inv_tasks _ _ Hinv h q Hq) as [Hph _]. rewrite Hh in Hph.
  pose proof (bar_tasks _ _ _ _ Hbar h q Hq) as Hsq.
  destruct (task_moves_unless_locked_out s h _ q Hex Hq Hsq)
    as [(k' & -> & _) | (r & e & s' & Hstep)]; [| | eauto].
  - intros ->. destruct (in_span (S h) tr); inversion Hph.
  - exfalso. destruct (in_span (S h) tr); inversion Hph; subst; discriminate.
Qed.

End BarrierProperties.

(** ** The completed counter never runs ahead *)

Section TallyProperties.

Variable path_Join : string -> string -> string.
Variable config : Config.

Local Open Scope list_scope.

Hypothesis few_projects : Z.of_nat (length (Projects config)) < 2 ^ 63.

Lemma stored_snoc (i j : nat) (tr : trace) (e : event) :
  stored i (tr ++ [(j, e)]) =
    stored i tr ||
      match e with
      | EStore Complete _ => Nat.eqb j i
      | _ => false
      end.
Proof.
  unfold stored. rewrite existsb_app. cbn. rewrite orb_false_r. reflexivity.
Qed.

Lemma stored_quiet (i j : nat) (tr : trace) (e : event) :
  (forall v, e <> EStore Complete v) -> stored i (tr ++ [(j, e)]) = stored i tr.
Proof.
  intros He. rewrite stored_snoc.
  destruct e as [| | | x v | | |]; try apply orb_false_r.
  destruct x; try apply orb_false_r. destruct (He v eq_refl).
Qed.

Lemma stored_other (i j : nat) (tr : trace) (e : event) :
  j <> i -> stored i (tr ++ [(j, e)]) = stored i tr.
Proof.
  intros Hne. rewrite stored_snoc.
  destruct e as [| | | x v | | |]; try apply orb_false_r.
  destruct x; try apply orb_false_r.
  destruct (Nat.eqb_spec j i); [contradiction | apply orb_false_r].
Qed.

(** Put the command tree of the goal in head normal form. *)
Ltac norm_increments :=
  lazymatch goal with
  | |- increments ?b ?P =>
      let P' := eval hnf in P in change (increments b P')
  end.

(** [migrate] executes [queue.Complete++] exactly once on every path. *)
Lemma migrate_increments (p : Project) :
  increments false (migrate path_Join config p).
Proof.
  repeat (norm_increments;
          first
            [ apply in_return
            | apply in_incr
            | apply in_do
            | apply in_call; intros [? |]
            | apply in_load; intros ? ]).
Qed.

Lemma poised_mono (b1 b2 : Z) (h : bool) (p : prog) :
  b1 <= b2 -> poised b1 h p -> poised b2 h p.
Proof.
  intros Hle [H | (Hh & n & k & -> & Hk & Hn)]; [left; exact H |].
  right. split; [exact Hh |]. exists n, k. repeat split; auto; lia.
Qed.

Lemma init_tally : tally (init path_Join config) [].
Proof.
  split; cbn.
  - intros i p H. destruct i; discriminate H.
  - reflexivity.
  - lia.
Qed.

Ltac solve_threads :=
  cbn; rewrite ?app_nil_r;
  first [ reflexivity | symmetry; apply list_insert_id; eassumption ].

Lemma main_at_started (m : prog) (n : nat) (reserved : Z) (w : bool) :
  main_at path_Join config m n reserved w ->
  (n <= length (Projects config))%nat.
Proof.
  intros H.
  destruct H as [| | | done rest Hpr | done p rest Hpr | done p rest v Hpr
                 | done p rest Hpr | |];
    try lia; rewrite Hpr, length_app; lia.
Qed.

(** Tasks that have just been started have not written the counter. *)
Lemma counted_extended (s s' : state) (tr tr' : trace) (extra : list prog) :
  (1 <= length (threads s))%nat ->
  length (threads s') = (length (threads s) + length extra)%nat ->
  (forall i, stored i tr' = stored i tr) ->
  (forall i, (length (threads s) <= i)%nat -> stored i tr = false) ->
  length (counted s' tr') = length (counted s tr).
Proof.
  intros Hpos Hlen Hsame Hfresh. unfold counted. rewrite Hlen.
  replace (length (threads s) + length extra - 1)%nat
    with ((length (threads s) - 1) + length extra)%nat by lia.
  rewrite seq_app, List.filter_app, length_app.
  rewrite (List.filter_ext_in (fun i => stored i tr') (fun _ => false)
             (seq _ (length extra))).
  - rewrite (List.filter_ext _ (fun i => stored i tr)) by (intros; apply Hsame).
    clear. induction (seq _ (length extra)) as [| a l IH]; cbn; lia.
  - intros i Hi. apply in_seq in Hi. rewrite Hsame. apply Hfresh. lia.
Qed.

Lemma counted_at_most_tasks (s : state) (tr : trace) :
  (length (counted s tr) <= length (threads s) - 1)%nat.
Proof.
  unfold counted.
  etransitivity; [apply List.filter_length_le |]. rewrite length_seq. lia.
Qed.

(** Every step of the process keeps the tally invariant. *)
Lemma step_tally (s s' : state) (tr : trace) (i : nat)
      (r : option error) (e : event) :
  barrier path_Join config s tr ->
  tally s tr ->
  step_fn s i r = Some (e, s') ->
  tally s' (tr ++ [(i, e)]).
Proof.
  intros Hbar [Htasks Hfresh Hbound] Hstep.
  destruct (bar_main _ _ _ _ Hbar) as (m & n & rv & Hm & Hat & Hlen & _).
  pose proof (main_at_started _ _ _ _ Hat) as Hstarted.
  pose proof (lookup_lt_Some _ _ _ Hm) as Hpos.
  unfold step_fn in Hstep. destruct (exited s); [discriminate |].
  destruct i as [| i].
  - (* main *)
    rewrite Hm in Hstep.
    assert (Hfin : forall m' extra,
               (forall v, e <> EStore Complete v) ->
               threads s' = <[O := m']> (threads s) ++ extra ->
               Forall (increments false) extra ->
               q_Complete s' = q_Complete s ->
               tally s' (tr ++ [(O, e)])).
    { intros m' extra He Hth Hextra Hq.
      assert (Hsame : forall j, stored j (tr ++ [(O, e)]) = stored j tr).
      { intros j. apply stored_quiet. exact He. }
      assert (Hlen' : length (threads s') = (length (threads s) + length extra)%nat).
      { rewrite Hth, length_app, length_insert. reflexivity. }
      assert (Hcount : length (counted s' (tr ++ [(O, e)])) = length (counted s tr)).
      { apply counted_extended with extra; auto; lia. }
      split.
      - intros j p Hp. rewrite Hsame, Hcount. rewrite Hth in Hp.
        destruct (decide (S j < length (threads s))%nat) as [Hlt | Hge].
        + rewrite lookup_app_l in Hp by (rewrite length_insert; exact Hlt).
          rewrite list_lookup_insert_ne in Hp by discriminate.
          apply Htasks. exact Hp.
        + rewrite lookup_app_r in Hp by (rewrite length_insert; lia).
          apply list_elem_of_lookup_2 in Hp.
          rewrite Forall_forall in Hextra.
          rewrite Hfresh by lia. left. apply Hextra. exact Hp.
      - intros j Hj. rewrite Hsame. apply Hfresh. lia.
      - rewrite Hq, Hcount. exact Hbound. }
    remember (wait_returned tr) as w eqn:Hw.
    destruct Hat as [c k Hk | f a code | code
                     | done rest Hpr | done p rest Hpr
                     | done p rest v Hpr | done p rest Hpr
                     | | ].
    all: try (destruct rest as [| p rest]; cbn [spawn_all] in Hstep;
              unfold after_loop, Queue_Add, wg_add in Hstep).
    all: repeat match type of Hstep with
           | context [if ?c then _ else _] => destruct c
           end;
         try discriminate Hstep; injection Hstep as <- <-.
    all: try (eapply (Hfin _ []);
              [ discriminate | solve_threads | constructor | reflexivity ]; fail).
    eapply (Hfin _ [migrate path_Join config p]);
      [ discriminate | solve_threads | | reflexivity ].
    constructor; [apply migrate_increments | constructor].
  - (* a task *)
    destruct (threads s !! S i) as [p |] eqn:Hp; [| discriminate].
    pose proof (lookup_lt_Some _ _ _ Hp) as Hlt.
    assert (Hother : forall j e1, j <> S i ->
                                  stored j (tr ++ [(S i, e1)]) = stored j tr).
    { intros j e1 Hj. apply stored_other. auto. }
    assert (Hfin : forall p',
               (forall v, e <> EStore Complete v) ->
               threads s' = <[S i := p']> (threads s) ->
               q_Complete s' = q_Complete s ->
               poised (Z.of_nat (length (counted s tr))) (stored (S i) tr) p' ->
               tally s' (tr ++ [(S i, e)])).
    { intros p' He Hth Hq Hp'.
      assert (Hsame : forall j, stored j (tr ++ [(S i, e)]) = stored j tr).
      { intros j. apply stored_quiet. exact He. }
      assert (Hcount : length (counted s' (tr ++ [(S i, e)])) = length (counted s tr)).
      { rewrite <- (Nat.add_0_r (length (counted s tr))).
        rewrite Nat.add_0_r.
        apply counted_extended with []; auto; cbn; try lia.
        rewrite Hth, length_insert. lia. }
      split.
      - intros j q Hq'. rewrite Hsame, Hcount. rewrite Hth in Hq'.
        destruct (decide (j = i)) as [-> | Hne].
        + rewrite list_lookup_insert_eq in Hq' by exact Hlt.
          injection Hq' as <-. exact Hp'.
        + rewrite list_lookup_insert_ne in Hq' by congruence.
          apply Htasks. exact Hq'.
      - intros j Hj. rewrite Hth, length_insert in Hj. rewrite Hsame.
        apply Hfresh. exact Hj.
      - rewrite Hq, Hcount. exact Hbound. }
    destruct (Htasks i p Hp) as [Hinc | (Hno & v & k & -> & Hk & Hv)].
    + remember (stored (S i) tr) as b eqn:Hb.
      destruct Hinc as [| k Hk | b e0 k Hk | b c k Hk | x k Hk].
      * discriminate Hstep.
      * injection Hstep as <- <-. eapply Hfin;
          [ discriminate | solve_threads | reflexivity |].
        right. split; [congruence |].
        exists (q_Complete s), k. repeat split; auto; lia.
      * destruct e0; unfold wg_add in Hstep;
          repeat match type of Hstep with
            | context [if ?c then _ else _] => destruct c
            end;
          try discriminate Hstep; injection Hstep as <- <-;
          (eapply Hfin; [ discriminate | solve_threads | reflexivity |]);
          left; rewrite <- ?Hb;
          first [ exact Hk | apply in_do; exact Hk ].
      * injection Hstep as <- <-. eapply Hfin;
          [ discriminate | solve_threads | reflexivity |].
        left. rewrite <- ?Hb. apply Hk.
      * injection Hstep as <- <-. eapply Hfin;
          [ discriminate | solve_threads | reflexivity |].
        left. rewrite <- ?Hb. apply Hk.
    + (* the store of the increment *)
      injection Hstep as <- <-.
      assert (Hcount : forall s'',
                 length (threads s'') = length (threads s) ->
                 length (counted s'' (tr ++ [(S i, EStore Complete (incr v))]))
                 = S (length (counted s tr))).
      { intros s'' Hl. unfold counted. rewrite Hl.
        apply (filter_flip_one _ _ (S i)).
        - apply NoDup_seq.
        - apply list_elem_of_In, in_seq. lia.
        - rewrite stored_snoc, Nat.eqb_refl. apply orb_true_r.
        - exact Hno.
        - intros y Hy. symmetry. apply Hother. exact Hy. }
      pose proof (counted_at_most_tasks s tr) as Hmost.
      assert (Hin : (length (counted s tr) < length (threads s) - 1)%nat).
      { pose proof (counted_at_most_tasks s
                      (tr ++ [(S i, EStore Complete (incr v))])) as H'.
        rewrite (Hcount s eq_refl) in H'. lia. }
      assert (Hincr : incr v = v + 1) by (apply (incr_small config); lia).
      assert (Hl : forall a b c d e0,
                 length (threads (mkState (<[S i := k]> (threads s)) a b c d e0))
                 = length (threads s)).
      { intros. cbn. apply length_insert. }
      split.
      * intros j q Hq. rewrite Hcount by apply Hl. cbn [threads] in Hq.
        destruct (decide (j = i)) as [-> | Hne].
        -- rewrite list_lookup_insert_eq in Hq by exact Hlt.
           injection Hq as <-. left.
           rewrite stored_snoc, Nat.eqb_refl, orb_true_r. exact Hk.
        -- rewrite list_lookup_insert_ne in Hq by congruence.
           rewrite Hother by congruence.
           eapply poised_mono; [| apply Htasks; exact Hq]. lia.
      * intros j Hj. cbn [threads] in Hj.
        rewrite length_insert in Hj. rewrite Hother by lia.
        apply Hfresh. exact Hj.
      * rewrite Hcount by apply Hl. cbn [q_Complete]. lia.
Qed.

Lemma run_tally (sch : schedule) :
  forall (s s' : state) (tr tr' : trace),
    barrier path_Join config s tr ->
    tally s tr ->
    run_sched s tr sch = Some (tr', s') ->
    tally s' tr'.
Proof.
  induction sch as [| [i r] rest IH]; intros s s' tr tr' Hbar Ht Hrun.
  - injection Hrun as <- <-. exact Ht.
  - cbn [run_sched] in Hrun.
    destruct (step_fn s i r) as [[e s1] |] eqn:Hstep; [| discriminate].
    eapply IH; [| | exact Hrun].
    + eapply step_barrier; eauto.
    + eapply step_tally; eauto.
Qed.

(** X4. [queue.Complete] never runs ahead: at every instant of every run it is
    at least 0 and at most the number of tasks that have written it,
    which is at most the number of configured projects. *)
Theorem completed_never_overcounts (sch : schedule) (tr : trace) (s : state) :
  run_sched (init path_Join config) [] sch = Some (tr, s) ->
  0 <= q_Complete s <= Z.of_nat (length (counted s tr)) /\
  (length (counted s tr) <= length (Projects config))%nat.
Proof.
  intros Hrun.
  pose proof (run_barrier path_Join config sch _ _ _ _
                (init_barrier path_Join config) Hrun) as Hbar.
  pose proof (run_tally sch _ _ _ _ (init_barrier path_Join config)
                init_tally Hrun) as [_ _ Hbound].
  split; [exact Hbound |].
  destruct (bar_main _ _ _ _ Hbar) as (m & n & rv & _ & Hat & Hlen & _).
  pose proof (main_at_started _ _ _ _ Hat).
  pose proof (counted_at_most_tasks s tr). lia.
Qed.

End TallyProperties.

(** ** The counters of the queue *)

(** C2, on the code. [Queue.Done] signals the wait group first and counts
    afterwards, and it counts with a plain load and a plain store. With
    one project, main can return from [wg.Wait()] and end the process
    while [queue.Complete] is still 0 and [queue.Total] is 1. With two
    projects, both tasks can read [queue.Complete] before either writes it:
    all goroutines run to their end and [queue.Complete] is 1, not 2. The
    entries are: [wg.Wait()] has returned, the wait group's counter,
    [queue.Complete], [queue.Total], the exit status, the number of
    goroutines that have returned. *)
Theorem completed_counter_falls_short :
  observe (run_sched (init join_slash (sample_config [alpha])) [] early_wake)
    = Some (true, 0, 0, 1, Some 0, 1%nat) /\
  observe (run_sched (init join_slash (sample_config [alpha; beta])) [] lost_update)
    = Some (true, 0, 1, 2, Some 0, 3%nat).
Proof. split; vm_compute; reflexivity. Qed.

(** When the increments do not interleave and main is the last to move,
    the counters do agree. *)
Lemma orderly_run_counts :
  observe (run_sched (init join_slash (sample_config [alpha; beta])) [] orderly)
    = Some (true, 0, 2, 2, Some 0, 3%nat).
Proof. vm_compute. reflexivity. Qed.

(** ** The theorems at sample inputs *)

Lemma cleanup_jobs_in_order_witness :
  let tr := run fresh_env 0 (migrate join_slash (sample_config [alpha]) alpha) in
  let tr' := run no_entry_env 0 (migrate join_slash (sample_config [alpha]) alpha) in
  In (Migration, true) (outcomes tr) /\
  In (Chdir "/srv/git/alpha", None) (calls tr) /\
  jobs (key_events tr) = [Migration; Tags; Branches; Pegs; Old] /\
  In (Migration, true) (outcomes tr') /\
  In (Chdir "/srv/git/alpha", Some "permission denied") (calls tr') /\
  jobs tr' = [Migration].
Proof.
  assert (H1 : In (Migration, true)
                 (outcomes (run fresh_env 0
                              (migrate join_slash (sample_config [alpha]) alpha)))).
  { vm_compute. auto. }
  assert (H2 : In (Chdir "/srv/git/alpha", None)
                 (calls (run fresh_env 0
                           (migrate join_slash (sample_config [alpha]) alpha)))).
  { vm_compute. auto 6. }
  assert (H3 : In (Migration, true)
                 (outcomes (run no_entry_env 0
                              (migrate join_slash (sample_config [alpha]) alpha)))).
  { vm_compute. auto. }
  assert (H4 : In (Chdir "/srv/git/alpha", Some "permission denied")
                 (calls (run no_entry_env 0
                           (migrate join_slash (sample_config [alpha]) alpha)))).
  { vm_compute. auto 6. }
  split; [exact H1 |]. split; [exact H2 |]. split; [| split; [exact H3 |]].
  - destruct (cleanup_jobs_in_order join_slash (sample_config [alpha]) alpha
                fresh_env H1)
      as [_ [(r1 & r2 & r3 & r4 & r5 & Hk) | (e & Hk & _)]].
    + cbv zeta. rewrite Hk. reflexivity.
    + exfalso. vm_compute in Hk. discriminate Hk.
  - split; [exact H4 |].
    destruct (cleanup_jobs_in_order join_slash (sample_config [alpha]) alpha
                no_entry_env H3)
      as [_ [(r1 & r2 & r3 & r4 & r5 & Hk) | (e & _ & Hj)]].
    + exfalso. vm_compute in Hk. discriminate Hk.
    + exact Hj.
Defined.

(** C3, as stated, fails: the clone of [alpha] succeeds, the change into
    its directory does not, and none of the three cleanup jobs runs. *)
Lemma clone_ok_without_cleanup :
  let tr := run no_entry_env 0 (migrate join_slash (sample_config [alpha]) alpha) in
  outcomes tr = [(Migration, true)] /\
  ~ In Tags (jobs tr) /\ ~ In Branches (jobs tr) /\ ~ In Pegs (jobs tr) /\
  calls tr =
    [ (Stat "/srv/git/alpha", Some "no such file or directory");
      (Create "/srv/git/alpha.log", None);
      (Run Migration
         (mkCmd "git"
            ["git"; "svn"; "clone"; "svn://host/alpha"; "--authors-file=users.txt";
             "--no-metadata"; "--prefix"; "-s"; "alpha"]
            (Some "/srv/git/alpha.log") (Some "/srv/git/alpha.log")), None);
      (Chdir "/srv/git/alpha", Some "permission denied") ].
Proof.
  vm_compute. repeat split; try reflexivity; intros [H | []]; discriminate H.
Qed.

Lemma cleanup_failure_does_not_stop_witness :
  let tr := run failing_scripts_env 0
              (migrate join_slash (sample_config [beta]) beta) in
  let out := Some "/srv/git/beta.log" in
  In Tags (jobs tr) /\
  List.filter (fun c => match fst c with Run _ _ => true | _ => false end) (calls tr) =
    [ (Run Migration
         (mkCmd "git"
            ["git"; "svn"; "clone"; "svn://host/beta"; "--authors-file=users.txt";
             "--no-metadata"; "--prefix"; ""; "beta"] out out), None);
      (Run Tags (mkCmd "/bin/bash" ["/bin/bash"; "/srv/git/tags.sh"] out out),
       Some "exit status 1");
      (Run Branches (mkCmd "/bin/bash" ["/bin/bash"; "/srv/git/branches.sh"] out out),
       Some "exit status 1");
      (Run Pegs (mkCmd "/bin/bash" ["/bin/bash"; "/srv/git/pegs.sh"] out out),
       Some "exit status 1");
      (Run Old (mkCmd "git" ["git"; "branch"; "-d"; "git-svn"] out out),
       Some "exit status 1") ] /\
  jobs tr = [Migration; Tags; Branches; Pegs; Old] /\
  In (EDo WgDone) tr.
Proof.
  assert (H : In Tags (jobs (run failing_scripts_env 0
                               (migrate join_slash (sample_config [beta]) beta)))).
  { vm_compute. auto. }
  split; [exact H |]. split; [vm_compute; reflexivity |].
  pose proof (cleanup_failure_does_not_stop join_slash (sample_config [beta]) beta
                failing_scripts_env H) as (_ & Hj & _ & _ & _ & _ & _ & Hd).
  split; [exact Hj | exact Hd].
Defined.

Lemma clone_parameters_witness :
  let tr := run fresh_env 0 (migrate join_slash (sample_config [alpha; beta]) beta) in
  let c := mkCmd "git"
             ["git"; "svn"; "clone"; "svn://host/beta"; "--authors-file=users.txt";
              "--no-metadata"; "--prefix"; ""; "beta"]
             (Some "/srv/git/beta.log") (Some "/srv/git/beta.log") in
  In (ECall (Run Migration c) None) tr /\
  Args c !! 6%nat = Some "--prefix" /\
  (Args c !! 7%nat = Some "" <-> Standard beta = false).
Proof.
  intros tr c.
  assert (H : In (ECall (Run Migration c) None) tr).
  { vm_compute. do 4 right. left. reflexivity. }
  split; [exact H |].
  pose proof (clone_parameters join_slash (sample_config [alpha; beta]) beta
                fresh_env c None H) as (_ & _ & _ & _ & _ & _ & H6 & _ & H7 & _).
  split; [exact H6 | exact H7].
Defined.

(** C5, as stated, fails: [alpha] is standard and its clone command has the
    prefix flag, with [-s] after it; [beta] is not and has the same flag,
    with nothing after it. Neither [--prefix] nor [-s] is there exactly
    for the non-standard project. *)
Lemma prefix_flag_on_standard_project :
  Standard alpha = true /\
  option_map Args
    (migration_of (run fresh_env 0
                     (migrate join_slash (sample_config [alpha; beta]) alpha))) =
    Some ["git"; "svn"; "clone"; "svn://host/alpha"; "--authors-file=users.txt";
          "--no-metadata"; "--prefix"; "-s"; "alpha"] /\
  Standard beta = false /\
  option_map Args
    (migration_of (run fresh_env 0
                     (migrate join_slash (sample_config [alpha; beta]) beta))) =
    Some ["git"; "svn"; "clone"; "svn://host/beta"; "--authors-file=users.txt";
          "--no-metadata"; "--prefix"; ""; "beta"].
Proof. vm_compute. repeat split; reflexivity. Qed.

Lemma std_flag_follows_prefix_witness :
  let tr := run fresh_env 0 (migrate join_slash (sample_config [alpha]) alpha) in
  let c := mkCmd "git"
             ["git"; "svn"; "clone"; "svn://host/alpha"; "--authors-file=users.txt";
              "--no-metadata"; "--prefix"; "-s"; "alpha"]
             (Some "/srv/git/alpha.log") (Some "/srv/git/alpha.log") in
  In (ECall (Run Migration c) None) tr /\
  (Args c !! 7%nat = Some "-s" <-> Standard alpha = true).
Proof.
  intros tr c.
  assert (H : In (ECall (Run Migration c) None) tr).
  { vm_compute. do 4 right. left. reflexivity. }
  split; [exact H |].
  pose proof (std_flag_follows_prefix join_slash (sample_config [alpha]) alpha
                fresh_env c None H) as (_ & H7 & _).
  exact H7.
Defined.


Lemma existing_directory_skips_witness :
  let tr := run (env_of_fs fs_with_dir) 0
              (migrate join_slash (sample_config [alpha]) alpha) in
  stat_from fs_with_dir (env_of_fs fs_with_dir) /\
  fs_with_dir "/srv/git/alpha" = Some IsDir /\
  calls tr = [(Stat "/srv/git/alpha", None)] /\
  jobs tr = [] /\
  In (EDo WgDone) tr.
Proof.
  assert (H1 : stat_from fs_with_dir (env_of_fs fs_with_dir)).
  { intros n name. reflexivity. }
  assert (H2 : fs_with_dir
                 (join_slash (BasePath (sample_config [alpha])) (Name alpha))
               = Some IsDir).
  { vm_compute. reflexivity. }
  split; [exact H1 |]. split; [exact H2 |].
  pose proof (existing_directory_skips join_slash (sample_config [alpha]) alpha
                (env_of_fs fs_with_dir) fs_with_dir H1 H2)
    as (_ & Hc & Hj & _ & Hd).
  split; [exact Hc |]. split; [exact Hj | exact Hd].
Defined.

Lemma prefix_takes_std_as_value_witness :
  let tr := run fresh_env 0 (migrate join_slash (sample_config [alpha]) alpha) in
  let c := mkCmd "git"
             ["git"; "svn"; "clone"; "svn://host/alpha"; "--authors-file=users.txt";
              "--no-metadata"; "--prefix"; "-s"; "alpha"]
             (Some "/srv/git/alpha.log") (Some "/srv/git/alpha.log") in
  In (ECall (Run Migration c) None) tr /\
  Args c =
    (["git"; "svn"; "clone"; "svn://host/alpha"; "--authors-file=users.txt";
      "--no-metadata"] ++ ["--prefix"; "-s"] ++ ["alpha"])%list.
Proof.
  intros tr c.
  assert (H : In (ECall (Run Migration c) None) tr).
  { vm_compute. do 4 right. left. reflexivity. }
  split; [exact H |].
  exact (prefix_takes_std_as_value join_slash (sample_config [alpha]) alpha
           fresh_env c None H).
Defined.

Lemma any_entry_skips_witness :
  let tr := run (env_of_fs fs_with_file) 0
              (migrate join_slash (sample_config [alpha]) alpha) in
  stat_from fs_with_file (env_of_fs fs_with_file) /\
  fs_with_file "/srv/git/alpha" = Some IsFile /\
  calls tr = [(Stat "/srv/git/alpha", None)] /\
  jobs tr = [].
Proof.
  assert (H1 : stat_from fs_with_file (env_of_fs fs_with_file)).
  { intros n name. reflexivity. }
  assert (H2 : fs_with_file
                 (join_slash (BasePath (sample_config [alpha])) (Name alpha))
               = Some IsFile).
  { vm_compute. reflexivity. }
  split; [exact H1 |]. split; [exact H2 |].
  pose proof (any_entry_skips join_slash (sample_config [alpha]) alpha
                (env_of_fs fs_with_file) fs_with_file IsFile H1 H2)
    as (_ & _ & Hc & Hj).
  split; [exact Hc | exact Hj].
Defined.

Lemma mutual_exclusion_witness :
  exists tr s,
    run_sched (init join_slash (sample_config [alpha; beta])) [] contended
      = Some (tr, s) /\
    holding 1 tr = true /\
    in_span 1 tr = true /\
    forall j, holding j tr = true -> j = 1%nat.
Proof.
  assert (Hobs : observe_mutex
                   (run_sched (init join_slash (sample_config [alpha; beta])) []
                      contended)
                 = Some (true, false, true, false, false)).
  { vm_compute. reflexivity. }
  destruct (run_sched (init join_slash (sample_config [alpha; beta])) [] contended)
    as [[tr s] |] eqn:Hrun; [| discriminate Hobs].
  exists tr, s. split; [reflexivity |].
  cbn [observe_mutex] in Hobs.
  assert (H1 : holding 1 tr = true) by congruence.
  assert (H2 : in_span 1 tr = true) by congruence.
  split; [exact H1 |]. split; [exact H2 |].
  intros j Hj.
  destruct (mutual_exclusion join_slash (sample_config [alpha; beta]) contended
              tr s Hrun) as (Hone & _).
  exact (Hone j 1%nat Hj H1).
Defined.

(** ** The further properties at sample inputs *)

Lemma total_counts_projects_witness :
  exists tr s,
    run_sched (init join_slash (sample_config [alpha; beta])) [] orderly
      = Some (tr, s) /\
    wait_returned tr = true /\
    q_Total s = 2.
Proof.
  assert (Hobs : observe (run_sched (init join_slash (sample_config [alpha; beta]))
                            [] orderly)
                 = Some (true, 0, 2, 2, Some 0, 3%nat)).
  { vm_compute. reflexivity. }
  destruct (run_sched (init join_slash (sample_config [alpha; beta])) [] orderly)
    as [[tr s] |] eqn:Hrun; [| discriminate Hobs].
  cbn [observe] in Hobs.
  assert (Hw : wait_returned tr = true) by congruence.
  exists tr, s. split; [reflexivity |]. split; [exact Hw |].
  apply (total_counts_projects join_slash (sample_config [alpha; beta])
           eq_refl orderly tr s Hrun Hw).
Defined.

Lemma wait_returns_after_every_task_witness :
  exists tr s,
    run_sched (init join_slash (sample_config [alpha; beta])) [] orderly
      = Some (tr, s) /\
    wait_returned tr = true /\
    signalled 1 tr = true /\ signalled 2 tr = true.
Proof.
  assert (Hobs : observe (run_sched (init join_slash (sample_config [alpha; beta]))
                            [] orderly)
                 = Some (true, 0, 2, 2, Some 0, 3%nat)).
  { vm_compute. reflexivity. }
  destruct (run_sched (init join_slash (sample_config [alpha; beta])) [] orderly)
    as [[tr s] |] eqn:Hrun; [| discriminate Hobs].
  cbn [observe] in Hobs.
  assert (Hw : wait_returned tr = true) by congruence.
  exists tr, s. split; [reflexivity |]. split; [exact Hw |].
  destruct (wait_returns_after_every_task join_slash
              (sample_config [alpha; beta]) orderly tr s Hrun Hw) as [_ Hall].
  split; apply Hall; cbn; lia.
Defined.

Lemma no_deadlock_witness :
  exists tr s,
    run_sched (init join_slash (sample_config [alpha; beta])) [] contended
      = Some (tr, s) /\
    exited s = None /\
    exists i r e s', step_fn s i r = Some (e, s').
Proof.
  assert (Hobs : option_map (fun o => exited (snd o))
                   (run_sched (init join_slash (sample_config [alpha; beta]))
                      [] contended)
                 = Some None).
  { vm_compute. reflexivity. }
  destruct (run_sched (init join_slash (sample_config [alpha; beta])) [] contended)
    as [[tr s] |] eqn:Hrun; [| discriminate Hobs].
  cbn in Hobs. assert (Hex : exited s = None) by congruence.
  exists tr, s. split; [reflexivity |]. split; [exact Hex |].
  exact (no_deadlock join_slash (sample_config [alpha; beta]) contended tr s
           Hrun Hex).
Defined.

Lemma completed_never_overcounts_witness :
  exists tr s,
    run_sched (init join_slash (sample_config [alpha; beta])) [] lost_update
      = Some (tr, s) /\
    q_Complete s = 1 /\
    0 <= q_Complete s <= 2.
Proof.
  assert (Hobs : observe (run_sched (init join_slash (sample_config [alpha; beta]))
                            [] lost_update)
                 = Some (true, 0, 1, 2, Some 0, 3%nat)).
  { vm_compute. reflexivity. }
  destruct (run_sched (init join_slash (sample_config [alpha; beta])) [] lost_update)
    as [[tr s] |] eqn:Hrun; [| discriminate Hobs].
  cbn [observe] in Hobs.
  exists tr, s. split; [reflexivity |]. split; [congruence |].
  destruct (completed_never_overcounts join_slash (sample_config [alpha; beta])
              eq_refl lost_update tr s Hrun) as [Hb Hn].
  cbn in Hn. lia.
Defined.

Lemma failed_clone_ends_task_witness :
  let tr := run failing_clone_env 0
              (migrate join_slash (sample_config [alpha]) alpha) in
  In (Migration, false) (outcomes tr) /\
  mutex_ops tr = [] /\
  teardown tr = [Close "/srv/git/alpha.log"; WgDone].
Proof.
  assert (H : In (Migration, false)
                (outcomes (run failing_clone_env 0
                             (migrate join_slash (sample_config [alpha]) alpha)))).
  { vm_compute. auto. }
  split; [exact H |].
  destruct (failed_clone_ends_task join_slash (sample_config [alpha]) alpha
              failing_clone_env H) as (e0 & e & _ & _ & Hm & Ht).
  split; [exact Hm | exact Ht].
Defined.

Lemma failed_log_ends_task_witness :
  let tr := run no_log_env 0 (migrate join_slash (sample_config [alpha]) alpha) in
  In (Create "/srv/git/alpha.log", Some "permission denied") (calls tr) /\
  log_ops tr = [] /\
  teardown tr = [WgDone].
Proof.
  assert (H : In (Create (join_slash (BasePath (sample_config [alpha]))
                            (Name alpha +:+ ".log")), Some "permission denied")
                (calls (run no_log_env 0
                          (migrate join_slash (sample_config [alpha]) alpha)))).
  { vm_compute. auto. }
  split; [exact H |].
  destruct (failed_log_ends_task join_slash (sample_config [alpha]) alpha
              no_log_env "permission denied" H) as (e0 & _ & _ & Hl & Ht).
  split; [exact Hl | exact Ht].
Defined.

Lemma main_starts_one_task_per_project_witness :
  let cfg := sample_config [alpha; beta] in
  respond fresh_env 1 (Chdir (BasePath cfg)) = None /\
  respond fresh_env 2 CheckAssets = None /\
  coordination (run fresh_env 0 (main join_slash cfg)) =
    [ EDo (WgAdd 1); EGo (migrate join_slash cfg alpha);
      EDo (WgAdd 1); EGo (migrate join_slash cfg beta);
      EDo WgWait ].
Proof.
  intros cfg. split; [reflexivity |]. split; [reflexivity |].
  destruct (main_starts_one_task_per_project join_slash cfg fresh_env
              eq_refl eq_refl) as [Hc _].
  exact Hc.
Defined.

Lemma main_aborts_before_any_task_witness :
  let cfg := sample_config [alpha; beta] in
  respond no_entry_env 1 (Chdir (BasePath cfg)) = Some "permission denied" /\
  coordination (run no_entry_env 0 (main join_slash cfg)) = [].
Proof.
  intros cfg. split; [reflexivity |].
  destruct (main_aborts_before_any_task join_slash cfg no_entry_env
              "permission denied" (or_introl eq_refl)) as [Hc _].
  exact Hc.
Defined.

Lemma checkAssets_writes_the_assets_witness :
  let cfg := sample_config [] in
  let o := checkAssets join_slash cfg no_faults users_disk in
  with_scripts join_slash cfg users_disk (UsersPath cfg)
    = Some "alice = Alice <a@x>" /\
  result o = None /\
  disk_after o "/srv/git/users.txt" = Some "alice = Alice <a@x>" /\
  disk_after o "/srv/git/tags.sh" = Some tagsSh /\
  closed o = ["/srv/git/users.txt"; "/srv/users.txt"; "/srv/git/pegs.sh";
              "/srv/git/branches.sh"; "/srv/git/tags.sh"].
Proof.
  intros cfg o.
  assert (Hu : with_scripts join_slash cfg users_disk (UsersPath cfg)
               = Some "alice = Alice <a@x>").
  { vm_compute. reflexivity. }
  split; [exact Hu |].
  destruct (checkAssets_writes_the_assets join_slash cfg no_faults users_disk
              "alice = Alice <a@x>" (fun n _ => eq_refl) Hu) as (Hr & Hd & Hc).
  split; [exact Hr |]. split; [| split].
  - subst o. rewrite Hd. vm_compute. reflexivity.
  - subst o. rewrite Hd. vm_compute. reflexivity.
  - exact Hc.
Defined.

Lemma checkAssets_without_users_file_witness :
  let cfg := sample_config [] in
  let o := checkAssets join_slash cfg no_faults empty_disk in
  with_scripts join_slash cfg empty_disk (UsersPath cfg) = None /\
  result o = Some "open /srv/users.txt: no such file or directory" /\
  disk_after o "/srv/git/users.txt" = None /\
  closed o = ["/srv/git/pegs.sh"; "/srv/git/branches.sh"; "/srv/git/tags.sh"].
Proof.
  intros cfg o.
  assert (Hu : with_scripts join_slash cfg empty_disk (UsersPath cfg) = None).
  { vm_compute. reflexivity. }
  split; [exact Hu |].
  destruct (checkAssets_without_users_file join_slash cfg no_faults empty_disk
              (fun n _ => eq_refl) Hu) as (Hr & Hd & Hc).
  split; [exact Hr |]. split; [| exact Hc].
  subst o. rewrite Hd. vm_compute. reflexivity.
Defined.

Lemma failed_write_leaves_script_open_witness :
  let cfg := sample_config [] in
  let o := checkAssets join_slash cfg short_write users_disk in
  fails short_write 3 = Some "no space left on device" /\
  result o = Some "no space left on device" /\
  disk_after o "/srv/git/branches.sh" = Some "for b in $" /\
  closed o = ["/srv/git/tags.sh"].
Proof.
  intros cfg o.
  assert (Hf : forall n, (n < 2 * 1 + 1)%nat -> fails short_write n = None).
  { intros n Hn. destruct n as [| [| [| n]]]; try reflexivity. lia. }
  split; [reflexivity |].
  destruct (failed_write_leaves_script_open join_slash cfg short_write users_disk
              1 _ _ "no space left on device" eq_refl Hf eq_refl)
    as (Hr & Hd & Hc).
  split; [exact Hr |]. split; [| exact Hc].
  subst o. exact Hd.
Defined.
